(** * Lab 2 concurrent HTTP server: rate limiter, counters, inflight, request log

    Shallow embedding of [app/rate_limiter.py], [app/counter.py] and the
    request pipeline of [app/server.py].

    Conventions of the embedding:
    - Python [float] values are modelled twice. In [Limiter] and in the
      request pipeline token counts, clock readings and durations are
      exact rationals [Q], for the properties that hold whatever the
      rounding (bounds, isolation of keys, the shape of the log). In
      [FloatLimiter] they are IEEE 754 binary64 numbers, the [float] of
      Python, for what one call of [allow] does to a bucket.
    - Python [int] values are [Z]; [dict] objects keyed by strings are
      [gmap string _]; the bounded [deque] is a [list] with explicit
      eviction at the left end.
    - A clock reading ([time.monotonic()], [time.time()]) and the outcome
      of library input/output are arguments of the function that performs
      them.
    - A raised exception is the [Raise] alternative of [result]. *)

From Stdlib Require Import QArith Qround Lqa ZArith Lia.
From Stdlib Require Floats.
From stdpp Require Import gmap strings list fin_maps sorting.

(** ** Exceptions *)

Inductive exn : Type :=
| ValueError (msg : string)
| IndexError (msg : string)
| OSError (msg : string).

Inductive result (A : Type) : Type :=
| Ok (a : A)
| Raise (e : exn).
Arguments Ok {A} a.
Arguments Raise {A} e.

(** ** Float comparisons used by the source, on [Q] *)

(** [x > 0], [x >= 1.0] and friends, as booleans. *)
Definition Qgt_bool (x y : Q) : bool := negb (Qle_bool x y).

(** Python's builtin [min(a, b)]: the first argument unless the second is
    strictly smaller. *)
Definition py_min (a b : Q) : Q := if Qgt_bool a b then b else a.

(** ** Counting list items *)

(** How many items of [l] satisfy [P]. *)
Definition count {A} (P : A → bool) (l : list A) : nat :=
  length (List.filter P l).

(** * app/rate_limiter.py *)

Module Limiter.

(** [@dataclass class _Bucket] *)
Record _Bucket : Type := mkBucket { tokens : Q; last_refill : Q }.

(** [class RateLimiter]: the fields set by [__init__], with the floats
    read as exact rationals. The lock only serialises calls of [allow];
    one call is one function application. *)
Record RateLimiter : Type := mkLimiter {
  _rps : Q;
  _burst : Q;
  _buckets : gmap string _Bucket
}.

(** [RateLimiter.__init__(rps, burst)] *)
Definition __init__ (rps burst : Q) : result RateLimiter :=
  if Qle_bool rps 0 then Raise (ValueError "rps must be positive")
  else if Qle_bool burst 0 then Raise (ValueError "burst must be positive")
  else Ok {| _rps := rps; _burst := burst; _buckets := ∅ |}.

(** [RateLimiter.allow(ip)], with [now] the value read from
    [time.monotonic()] on entry. The bucket object lives in the dict and is
    mutated in place, so every assignment to it is written back under
    [ip]. *)
Definition allow (now : Q) (ip : string) (rl : RateLimiter)
  : bool * RateLimiter :=
  let bucket :=
    match _buckets rl !! ip with
    | Some b => b
    | None => {| tokens := _burst rl; last_refill := now |}
    end in
  let elapsed := (now - last_refill bucket)%Q in
  let bucket :=
    if Qgt_bool elapsed 0
    then {| tokens := py_min (_burst rl) (tokens bucket + elapsed * _rps rl);
            last_refill := now |}
    else bucket in
  if Qle_bool 1 (tokens bucket)
  then (true,
        {| _rps := _rps rl; _burst := _burst rl;
           _buckets := <[ip := {| tokens := (tokens bucket - 1)%Q;
                                  last_refill := last_refill bucket |}]>
                         (_buckets rl) |})
  else (false,
        {| _rps := _rps rl; _burst := _burst rl;
           _buckets := <[ip := bucket]> (_buckets rl) |}).

(** A sequence of calls, each with its clock reading; the list of verdicts
    is returned oldest first. *)
Fixpoint allow_all (calls : list (Q * string)) (rl : RateLimiter)
  : list bool * RateLimiter :=
  match calls with
  | [] => ([], rl)
  | (now, ip) :: rest =>
      let '(ok, rl1) := allow now ip rl in
      let '(oks, rl2) := allow_all rest rl1 in
      (ok :: oks, rl2)
  end.



(** The bucket a call works on: the stored one, or a full one stamped
    [now]. *)
Definition start_bucket (now : Q) (ip : string) (rl : RateLimiter) : _Bucket :=
  default {| tokens := _burst rl; last_refill := now |} (_buckets rl !! ip).

End Limiter.

(** [RateLimiter] once more, on the [float] of Python: IEEE 754 binary64
    with its rounding, infinities and NaN. Comparisons with a NaN are
    false, as in Python. *)
Module FloatLimiter.
Import Floats.PrimFloat.

Record _Bucket : Type := mkBucket { tokens : float; last_refill : float }.

Record RateLimiter : Type := mkLimiter {
  _rps : float;
  _burst : float;
  _buckets : gmap string _Bucket
}.

(** Python's builtin [min(a, b)]: the first argument unless the second is
    strictly smaller. *)
Definition py_min (a b : float) : float := if (b <? a)%float then b else a.

(** [RateLimiter.allow(ip)], with [now] the value read from
    [time.monotonic()] on entry. The clock is read before the lock is
    taken: the calls that run one after the other under the lock need not
    come with ascending readings. *)
Definition allow (now : float) (ip : string) (rl : RateLimiter)
  : bool * RateLimiter :=
  let bucket :=
    match _buckets rl !! ip with
    | Some b => b
    | None => {| tokens := _burst rl; last_refill := now |}
    end in
  let elapsed := (now - last_refill bucket)%float in
  let bucket :=
    if (0 <? elapsed)%float
    then {| tokens :=
              py_min (_burst rl) (tokens bucket + elapsed * _rps rl)%float;
            last_refill := now |}
    else bucket in
  if (1 <=? tokens bucket)%float
  then (true,
        {| _rps := _rps rl; _burst := _burst rl;
           _buckets := <[ip := {| tokens := (tokens bucket - 1)%float;
                                  last_refill := last_refill bucket |}]>
                         (_buckets rl) |})
  else (false,
        {| _rps := _rps rl; _burst := _burst rl;
           _buckets := <[ip := bucket]> (_buckets rl) |}).

(** The token-bucket contract in the words of the design: a new key starts
    with [burst_capacity] tokens; on every call
    [elapsed = now - last_refill],
    [tokens = min(burst_capacity, tokens + elapsed * rate)] and
    [last_refill = now]; with [tokens >= 1] one token is taken and the call
    is admitted, otherwise it is rejected and the tokens stay. The result
    is the verdict and the bucket stored for the key. *)
Definition contract_allow (now : float) (ip : string) (rl : RateLimiter)
  : bool * _Bucket :=
  let b := default {| tokens := _burst rl; last_refill := now |}
                   (_buckets rl !! ip) in
  let refilled :=
    py_min (_burst rl)
           (tokens b + (now - last_refill b) * _rps rl)%float in
  if (1 <=? refilled)%float
  then (true, {| tokens := (refilled - 1)%float; last_refill := now |})
  else (false, {| tokens := refilled; last_refill := now |}).

(** What [RateLimiter(rps=5.0, burst=5)] builds, as in
    [tests/test_rate_limiter.py]. *)
Definition limiter55 : RateLimiter :=
  {| _rps := 5; _burst := 5; _buckets := ∅ |}.

(** What [RateLimiter(rps=5.0, burst=2**54)] builds. *)
Definition limiter_huge : RateLimiter :=
  {| _rps := 5; _burst := 18014398509481984; _buckets := ∅ |}.

End FloatLimiter.

(** * app/counter.py *)

(** [class NaiveCounter]: [_counts] is the only field. [inc] reads, sleeps
    two milliseconds and writes, with no lock; the read and the write are
    separate steps of a worker thread. *)
Module NaiveCounter.

Definition __init__ : gmap string Z := ∅.

(** [current = self._counts.get(key, 0)] *)
Definition inc_read (key : string) (_counts : gmap string Z) : Z :=
  default 0%Z (_counts !! key).

(** [self._counts[key] = current + 1] *)
Definition inc_write (key : string) (current : Z) (_counts : gmap string Z)
  : gmap string Z :=
  <[key := (current + 1)%Z]> _counts.

(** A call of [inc] that no other thread interrupts. *)
Definition inc (key : string) (_counts : gmap string Z) : gmap string Z :=
  inc_write key (inc_read key _counts) _counts.

(** [dict(self._counts)] *)
Definition snapshot (_counts : gmap string Z) : gmap string Z := _counts.

(** [self._counts.clear()] *)
Definition reset (_counts : gmap string Z) : gmap string Z := ∅.

(** Where a worker that runs one [inc(key)] stands. *)
Inductive pc : Type :=
| Ready
| Sleeping (current : Z)
| Finished.

Record world : Type := mkWorld {
  _counts : gmap string Z;
  workers : list (string * pc)
}.

(** Worker [i] takes its next step; a finished or unknown worker does
    nothing. *)
Definition step (i : nat) (w : world) : world :=
  match workers w !! i with
  | Some (key, Ready) =>
      {| _counts := _counts w;
         workers := <[i := (key, Sleeping (inc_read key (_counts w)))]>
                      (workers w) |}
  | Some (key, Sleeping current) =>
      {| _counts := inc_write key current (_counts w);
         workers := <[i := (key, Finished)]> (workers w) |}
  | _ => w
  end.

(** An interleaving is the list of worker indices in the order they are
    scheduled. *)
Definition run (schedule : list nat) (w : world) : world :=
  foldl (λ w i, step i w) w schedule.

(** [n] workers, each about to call [inc(key)] on a fresh counter. *)
Definition spawn (n : nat) (key : string) : world :=
  {| _counts := __init__; workers := replicate n (key, Ready) |}.

Definition is_finished (p : string * pc) : bool :=
  match p.2 with Finished => true | _ => false end.

Definition all_finished (w : world) : bool := forallb is_finished (workers w).

(** Every worker reads before any worker writes. *)
Definition racy_schedule (n : nat) : list nat := seq 0 n ++ seq 0 n.

(** What holds in every world reached by workers that all use [key]: the
    stored count and every value a sleeping worker holds are at most the
    number of finished calls. *)
Definition inv (key : string) (w : world) : Prop :=
  Forall (λ p, p.1 = key) (workers w) ∧
  (default 0 (_counts w !! key) ≤ Z.of_nat (count is_finished (workers w)))%Z ∧
  Forall (λ p, ∀ c, p.2 = Sleeping c →
                    (c ≤ Z.of_nat (count is_finished (workers w)))%Z)
         (workers w).

End NaiveCounter.

(** [class LockedCounter]: the read-modify-write of [inc] runs inside
    [with self._lock]. *)
Module LockedCounter.

Definition __init__ : gmap string Z := ∅.

(** The body of [inc] under the lock:
    [self._counts[key] = self._counts.get(key, 0) + 1] *)
Definition inc (key : string) (_counts : gmap string Z) : gmap string Z :=
  <[key := (default 0%Z (_counts !! key) + 1)%Z]> _counts.

Definition snapshot (_counts : gmap string Z) : gmap string Z := _counts.

Definition reset (_counts : gmap string Z) : gmap string Z := ∅.

(** Where a worker that runs one [inc(key)] stands: before the lock, inside
    it before the read, between the read and the write, after the write
    and before the release, and after the release. *)
Inductive pc : Type :=
| Ready
| Entered
| Fetched (current : Z)
| Stored
| Finished.

Record world : Type := mkWorld {
  _counts : gmap string Z;
  _lock : bool;
  workers : list (string * pc)
}.

(** Worker [i] takes its next step. A worker that finds the lock taken
    stays where it is. *)
Definition step (i : nat) (w : world) : world :=
  match workers w !! i with
  | Some (key, Ready) =>
      if _lock w then w
      else {| _counts := _counts w; _lock := true;
              workers := <[i := (key, Entered)]> (workers w) |}
  | Some (key, Entered) =>
      {| _counts := _counts w; _lock := _lock w;
         workers := <[i := (key, Fetched (default 0%Z (_counts w !! key)))]>
                      (workers w) |}
  | Some (key, Fetched current) =>
      {| _counts := <[key := (current + 1)%Z]> (_counts w); _lock := _lock w;
         workers := <[i := (key, Stored)]> (workers w) |}
  | Some (key, Stored) =>
      {| _counts := _counts w; _lock := false;
         workers := <[i := (key, Finished)]> (workers w) |}
  | _ => w
  end.

Definition run (schedule : list nat) (w : world) : world :=
  foldl (λ w i, step i w) w schedule.

Definition spawn (n : nat) (key : string) : world :=
  {| _counts := __init__; _lock := false; workers := replicate n (key, Ready) |}.

Definition is_finished (p : string * pc) : bool :=
  match p.2 with Finished => true | _ => false end.

Definition all_finished (w : world) : bool := forallb is_finished (workers w).

(** [snapshot()] called by a further thread: it needs the lock, and copies
    the dict once it has it. *)
Definition snapshot_in (w : world) : option (gmap string Z) :=
  if _lock w then None else Some (snapshot (_counts w)).

(** Workers that hold the lock, and workers whose write is done. *)
Definition inside (p : string * pc) : bool :=
  match p.2 with Entered | Fetched _ | Stored => true | _ => false end.

Definition wrote (p : string * pc) : bool :=
  match p.2 with Stored | Finished => true | _ => false end.

(** What the dict holds under a key incremented [n] times. *)
Definition stored_value (n : nat) : option Z :=
  if n is 0 then None else Some (Z.of_nat n).

(** What holds in every world reached by workers that all use [key]: the
    lock is held by exactly the workers inside, the stored count is the
    number of writes done, and a value read under the lock is current. *)
Definition inv (key : string) (w : world) : Prop :=
  Forall (λ p, p.1 = key) (workers w) ∧
  count inside (workers w) = (if _lock w then 1 else 0) ∧
  _counts w !! key = stored_value (count wrote (workers w)) ∧
  Forall (λ p, ∀ c, p.2 = Fetched c → c = Z.of_nat (count wrote (workers w)))
         (workers w).

(** The workers one after the other, four steps each. *)
Definition serial_schedule (n : nat) : list nat :=
  flat_map (λ i, [i; i; i; i]) (seq 0 n).

End LockedCounter.

(** The counter object bound to the handler class by [make_server]. *)
Inductive Counter : Type :=
| Naive (_counts : gmap string Z)
| Locked (_counts : gmap string Z).

Definition counter_inc (key : string) (c : Counter) : Counter :=
  match c with
  | Naive m => Naive (NaiveCounter.inc key m)
  | Locked m => Locked (LockedCounter.inc key m)
  end.

Definition counter_snapshot (c : Counter) : gmap string Z :=
  match c with
  | Naive m => NaiveCounter.snapshot m
  | Locked m => LockedCounter.snapshot m
  end.

Definition counter_reset (c : Counter) : Counter :=
  match c with
  | Naive m => Naive (NaiveCounter.reset m)
  | Locked m => Locked (LockedCounter.reset m)
  end.

(** [type(self.counter).__name__] *)
Definition counter_name (c : Counter) : string :=
  match c with Naive _ => "NaiveCounter" | Locked _ => "LockedCounter" end.

(** * app/server.py *)

(** ** String helpers standing for [str] methods *)

(** [s.endswith(suffix)] *)
Definition endswith (suffix s : string) : bool :=
  String.prefix (String.rev suffix) (String.rev s).

(** The characters [str.strip()] removes, among the 256 a header value
    decoded as latin-1 can hold: tab to carriage return, the four
    separators, the space, next-line and the no-break space. *)
Definition is_space (c : Ascii.ascii) : bool :=
  let n := Ascii.nat_of_ascii c in
  ((9 <=? n) && (n <=? 13)) || ((28 <=? n) && (n <=? 32))
  || (n =? 133) || (n =? 160).

Fixpoint lstrip (s : string) : string :=
  match s with
  | String c rest => if is_space c then lstrip rest else s
  | EmptyString => EmptyString
  end.

(** [s.strip()] *)
Definition strip (s : string) : string :=
  String.rev (lstrip (String.rev (lstrip s))).

(** [s.split(",")[0]]: the part before the first comma. *)
Fixpoint before_comma (s : string) : string :=
  match s with
  | String c rest =>
      if Ascii.eqb c (Ascii.ascii_of_nat 44) then EmptyString else String c (before_comma rest)
  | EmptyString => EmptyString
  end.

(** [round(x, 2)] on an exact value: the nearest multiple of 1/100, a tie
    going to the even one. *)
Definition round_half_even (x : Q) : Z :=
  let f := Qfloor x in
  let r := (x - inject_Z f)%Q in
  if Qle_bool r (1 # 2)
  then if Qle_bool (1 # 2) r then (if Z.even f then f else f + 1)%Z else f
  else (f + 1)%Z.

Definition round2 (x : Q) : Q :=
  (inject_Z (round_half_even (x * 100)) / 100)%Q.

(** ** The log entry dict built by [_log] *)
Module LogEntry.
Record t : Type := mk {
  id : Z;
  ts : Q;
  ip : string;
  method : string;
  path : string;
  status : Z;
  dur_ms : Q;
  inflight : Z;
  thread : string
}.
End LogEntry.

(** [collections.deque(maxlen=...)]: [append] drops the leftmost item of a
    full deque. *)
Definition deque_append {A} (maxlen : nat) (x : A) (d : list A) : list A :=
  if (maxlen =? 0)%nat then []
  else if (length d <? maxlen)%nat then d ++ [x]
  else drop 1 d ++ [x].

(** [items[-n:]] for [n >= 1]: the last [n] items, or all of them. *)
Definition last_items {A} (n : Z) (items : list A) : list A :=
  drop (length items - Z.to_nat n) items.

Module RequestHandler.

(** The class attributes of [RequestHandler], shared by every request, as
    [make_server] binds them. *)
Record Shared : Type := mkShared {
  counter : option Counter;
  limiter : option Limiter.RateLimiter;
  delay : Q;
  trust_xff : bool;
  server_threaded : bool;
  inflight : Z;
  logs : list LogEntry.t;
  log_seq : Z
}.

(** [logs = deque(maxlen=1000)] *)
Definition logs_maxlen : nat := 1000.

Definition set_counter (c : option Counter) (s : Shared) : Shared :=
  {| counter := c; limiter := limiter s; delay := delay s;
     trust_xff := trust_xff s; server_threaded := server_threaded s;
     inflight := inflight s; logs := logs s; log_seq := log_seq s |}.

Definition set_limiter (l : option Limiter.RateLimiter) (s : Shared) : Shared :=
  {| counter := counter s; limiter := l; delay := delay s;
     trust_xff := trust_xff s; server_threaded := server_threaded s;
     inflight := inflight s; logs := logs s; log_seq := log_seq s |}.

Definition set_inflight (n : Z) (s : Shared) : Shared :=
  {| counter := counter s; limiter := limiter s; delay := delay s;
     trust_xff := trust_xff s; server_threaded := server_threaded s;
     inflight := n; logs := logs s; log_seq := log_seq s |}.

(** [_inflight_inc] *)
Definition _inflight_inc (s : Shared) : Shared :=
  set_inflight (inflight s + 1)%Z s.

(** [_inflight_dec] *)
Definition _inflight_dec (s : Shared) : Shared :=
  if (0 <? inflight s)%Z then set_inflight (inflight s - 1)%Z s else s.

(** [_inflight_peek] *)
Definition _inflight_peek (s : Shared) : Z := inflight s.

(** The two mutating calls, as data, to speak of sequences of them. *)
Inductive inflight_op : Type := Inc | Dec.

Definition inflight_apply (s : Shared) (op : inflight_op) : Shared :=
  match op with Inc => _inflight_inc s | Dec => _inflight_dec s end.

(** [_log(ip=, method=, path=, status=, dur_ms=, inflight=)]; [wall] is the
    value of [time.time()] and [worker] the current thread's name. *)
Definition _log (ip method path : string) (status : Z) (dur_ms : Q)
    (infl : Z) (wall : Q) (worker : string) (s : Shared) : Shared :=
  let seq := (log_seq s + 1)%Z in
  let entry :=
    {| LogEntry.id := seq; LogEntry.ts := wall; LogEntry.ip := ip;
       LogEntry.method := method; LogEntry.path := path;
       LogEntry.status := status; LogEntry.dur_ms := round2 dur_ms;
       LogEntry.inflight := infl; LogEntry.thread := worker |} in
  {| counter := counter s; limiter := limiter s; delay := delay s;
     trust_xff := trust_xff s; server_threaded := server_threaded s;
     inflight := inflight s;
     logs := deque_append logs_maxlen entry (logs s);
     log_seq := seq |}.

(** The request as the handler sees it. *)
Record Request : Type := mkRequest {
  path : string;
  client_address : string;
  x_forwarded_for : option string
}.

(** What the outside world answers while one request is handled. *)
Record Env : Type := mkEnv {
  mono_allow : Q;            (* time.monotonic() in RateLimiter.allow *)
  mono_start : Q;            (* start = time.monotonic() *)
  mono_except : Q;           (* time.monotonic() in the except clause *)
  mono_finally : Q;          (* time.monotonic() in the finally clause *)
  wall_first : Q;            (* time.time() in the request's first _log *)
  wall_second : Q;           (* time.time() in its second _log *)
  thread_name : string;      (* threading.current_thread().name *)
  listdir : option (list (string * bool));
                             (* sorted(os.listdir(root)) with isdir of each
                                name; None when it raises OSError *)
  write_failure : option exn;(* raised by writing the listing, or the 404
                                of a missing directory, to the peer *)
  reject_failure : option exn;
                             (* raised by send_error(429) writing to the
                                peer *)
  static_status : option Z;  (* last code super().do_GET() passed to
                                send_response *)
  static_failure : option exn; (* raised by super().do_GET() *)
  fire_ok : Z                (* requests of /api/fire answered with 200 *)
}.

(** JSON bodies of the API. *)
Inductive Payload : Type :=
| PPing
| PInfo (delay : Q) (counter_mode : option string) (rps burst : option Q)
        (server : string)
| PReset
| PCounts (data : gmap string Z)
| PInflight (n : Z)
| PLogs (items : list LogEntry.t)
| PFire (requested ok : Z).

Inductive Response : Type :=
| SendError (code : Z) (message : string)
| SendJson (code : Z) (body : Payload)
| SendListing (code : Z) (links : list (string * Z))
| SendStatic (code : option Z).

(** [ip]: the first hop of [X-Forwarded-For] when trusted and present,
    else the peer address. *)
Definition client_key (s : Shared) (r : Request) : string :=
  match x_forwarded_for r with
  | Some hdr =>
      if trust_xff s && negb (String.eqb hdr "")
      then strip (before_comma hdr)
      else client_address r
  | None => client_address r
  end.

(** The arguments of one call of [_log], with the wall clock reading and
    the worker's name. *)
Record LogCall : Type := mkLogCall {
  call_ip : string;
  call_method : string;
  call_path : string;
  call_status : Z;
  call_dur_ms : Q;
  call_inflight : Z;
  call_wall : Q;
  call_worker : string
}.

Definition log_call (s : Shared) (c : LogCall) : Shared :=
  _log (call_ip c) (call_method c) (call_path c) (call_status c)
       (call_dur_ms c) (call_inflight c) (call_wall c) (call_worker c) s.

(** The entry a call appends when the sequence number stands at [seq]. *)
Definition entry_of (seq : Z) (c : LogCall) : LogEntry.t :=
  {| LogEntry.id := (seq + 1)%Z; LogEntry.ts := call_wall c;
     LogEntry.ip := call_ip c; LogEntry.method := call_method c;
     LogEntry.path := call_path c; LogEntry.status := call_status c;
     LogEntry.dur_ms := round2 (call_dur_ms c);
     LogEntry.inflight := call_inflight c;
     LogEntry.thread := call_worker c |}.

(** Every entry a sequence of calls appends, oldest first. *)
Fixpoint entries_from (seq : Z) (calls : list LogCall) : list LogEntry.t :=
  match calls with
  | [] => []
  | c :: rest => entry_of seq c :: entries_from (seq + 1)%Z rest
  end.

(** Ascending ids. *)
Definition ascending (l : list LogEntry.t) : Prop :=
  StronglySorted (λ a b, (LogEntry.id a < LogEntry.id b)%Z) l.

(** A query parameter whose first value [int] reads as [n]. *)
Definition asks (int_of_str : string → option Z)
    (q : gmap string (list string)) (name : string) (n : Z) : Prop :=
  ∃ v vs, q !! name = Some (v :: vs) ∧ int_of_str v = Some n.

(** A query parameter whose first value is absent or refused by [int]. *)
Definition unusable (int_of_str : string → option Z)
    (q : gmap string (list string)) (name : string) : Prop :=
  q !! name = None ∨
  ∃ v vs, q !! name = Some (v :: vs) ∧ int_of_str v = None.

(** The number a query asks for under [name], or [fallback] when the
    parameter is unusable. *)
Definition requested (int_of_str : string → option Z)
    (q : gmap string (list string)) (name : string) (fallback n : Z) : Prop :=
  asks int_of_str q name n ∨ (unusable int_of_str q name ∧ n = fallback).

Section Library.

(** [urlsplit(p).path]; [Raise] when [urlsplit] raises [ValueError]. *)
Variable urlsplit_path : string → result string.
(** [parse_qs(urlparse(p).query)] *)
Variable parse_qs_query : string → gmap string (list string).
(** [int(s)]; [None] when it raises [ValueError]. *)
Variable int_of_str : string → option Z.

(** The loop of [/__counts] and [/api/counter]:
    [data[p] = data.get(p, 0) + v] with [p = urlsplit(k).path]. *)
Definition normalize_counts (snap : gmap string Z) : result (gmap string Z) :=
  map_fold
    (λ k v acc,
       match acc with
       | Raise e => Raise e
       | Ok data =>
           match urlsplit_path k with
           | Raise e => Raise e
           | Ok p => Ok (<[p := (default 0%Z (data !! p) + v)%Z]> data)
           end
       end)
    (Ok ∅) snap.

(** [int(q.get(name, [dflt])[0])] inside [try ... except ValueError],
    with [fallback] assigned by the handler of [ValueError]. *)
Definition int_param (q : gmap string (list string)) (name dflt : string)
    (fallback : Z) : result Z :=
  match default [dflt] (q !! name) with
  | [] => Raise (IndexError "list index out of range")
  | v :: _ =>
      match int_of_str v with
      | Some n => Ok n
      | None => Ok fallback
      end
  end.

(** [last = max(1, min(500, last))] *)
Definition clamp_last (last : Z) : Z := Z.max 1 (Z.min 500 last).

(** The selection of [/api/logs] from the copied deque. *)
Definition select_logs (since last : Z) (items : list LogEntry.t)
  : list LogEntry.t :=
  if (0 <? since)%Z
  then List.filter (λ e, (since <? LogEntry.id e)%Z) items
  else last_items last items.

(** The [/api/logs] branch of [_handle_api]. *)
Definition api_logs (s : Shared) (r : Request) : result Response :=
  let q := parse_qs_query (path r) in
  match int_param q "since" "0" 0 with
  | Raise e => Raise e
  | Ok since =>
      match int_param q "last" "100" 100 with
      | Raise e => Raise e
      | Ok last =>
          let last := clamp_last last in
          let items := logs s in
          Ok (SendJson 200 (PLogs (select_logs since last items)))
      end
  end.

(** The [/api/fire] branch, as far as this handler goes: its parameters,
    the exception of [ThreadPoolExecutor] for [max_workers <= 0] and its
    answer, with [fire_ok e] the number of fired requests answered with
    200. The [n] requests themselves are sent to the server's own port and
    handled by other workers, each one a [do_GET] of its own that changes
    the class state as any request does: they are no part of this
    function, and on a single-worker server they are never answered. *)
Definition api_fire (e : Env) (r : Request) : result Response :=
  let q := parse_qs_query (path r) in
  match default ["/"] (q !! "path") with
  | [] => Raise (IndexError "list index out of range")
  | _ :: _ =>
      match int_param q "n" "10" 10 with
      | Raise x => Raise x
      | Ok n =>
          if (Z.min 64 n <=? 0)%Z
          then Raise (ValueError "max_workers must be greater than 0")
          else Ok (SendJson 200 (PFire n (fire_ok e)))
      end
  end.

(** [_handle_api(ip)] *)
Definition _handle_api (e : Env) (r : Request) (s : Shared)
  : Shared * result Response :=
  let p := path r in
  if String.prefix "/api/ping" p then (s, Ok (SendJson 200 PPing))
  else if String.prefix "/api/info" p then
    (s, Ok (SendJson 200
              (PInfo (delay s) (counter_name <$> counter s)
                     (Limiter._rps <$> limiter s)
                     (Limiter._burst <$> limiter s)
                     (if server_threaded s then "threaded" else "single"))))
  else if String.prefix "/api/reset" p then
    (set_counter (counter_reset <$> counter s) s, Ok (SendJson 200 PReset))
  else if String.prefix "/api/counter" p then
    (s, match normalize_counts
                (default ∅ (counter_snapshot <$> counter s)) with
        | Raise x => Raise x
        | Ok data => Ok (SendJson 200 (PCounts data))
        end)
  else if String.prefix "/api/inflight" p then
    (s, Ok (SendJson 200 (PInflight (inflight s))))
  else if String.prefix "/api/logs" p then (s, api_logs s r)
  else if String.prefix "/api/fire" p then (s, api_fire e r)
  else (s, Ok (SendError 404 "Unknown API path")).

(** [_serve_custom_index(counts, document_root)]: the status passed to
    [send_response] and the outcome. *)
Definition _serve_custom_index (e : Env) (r : Request)
    (counts : gmap string Z) : option Z * result Response :=
  match listdir e with
  | None =>
      match write_failure e with
      | Some x => (Some 404%Z, Raise x)
      | None => (Some 404%Z, Ok (SendError 404 "Directory not found"))
      end
  | Some items =>
      let base :=
        if endswith "/" (path r) then path r else (path r ++ "/")%string in
      let links :=
        map (λ item : string * bool,
               let p := (item.1 ++ (if item.2 then "/" else ""))%string in
               let href := (base ++ p)%string in
               (href, default 0%Z (counts !! href))) items in
      match write_failure e with
      | Some x => (Some 200%Z, Raise x)
      | None => (Some 200%Z, Ok (SendListing 200 links))
      end
  end.

(** The [try] block of [do_GET]: the counter afterwards, [_last_status]
    afterwards, and how the block ended. *)
Definition try_block (e : Env) (r : Request) (s : Shared)
  : Shared * option Z * result Response :=
  if Qgt_bool 0 (delay s)
  then (s, None, Raise (ValueError "sleep length must be non-negative"))
  else
    match urlsplit_path (path r) with
    | Raise x => (s, None, Raise x)
    | Ok key =>
        let s := set_counter (counter_inc key <$> counter s) s in
        if endswith "/" (path r) || String.eqb (path r) "/"
        then
          let counts := default ∅ (counter_snapshot <$> counter s) in
          let '(st, out) := _serve_custom_index e r counts in
          (s, st, out)
        else
          match static_failure e with
          | Some x => (s, static_status e, Raise x)
          | None => (s, static_status e, Ok (SendStatic (static_status e)))
          end
    end.

(** The [finally] clause of [do_GET]. *)
Definition finally_clause (e : Env) (r : Request) (ip : string)
    (wall : Q) (_last_status : option Z) (s : Shared) : Shared :=
  let dur_ms := ((mono_finally e - mono_start e) * 1000)%Q in
  let infl := _inflight_peek s in
  let status := default 200%Z _last_status in
  _inflight_dec (_log ip "GET" (path r) status dur_ms infl wall
                      (thread_name e) s).

(** [do_GET]. The second component is the response sent, or the exception
    that leaves [do_GET]. *)
Definition do_GET (e : Env) (r : Request) (s : Shared)
  : Shared * result Response :=
  let ip := client_key s r in
  if String.eqb (path r) "/__counts" then
    (s, match normalize_counts
                (default ∅ (counter_snapshot <$> counter s)) with
        | Raise x => Raise x
        | Ok data => Ok (SendJson 200 (PCounts data))
        end)
  else if String.prefix "/api/" (path r) then _handle_api e r s
  else
    let verdict :=
      match limiter s with
      | Some rl =>
          let '(ok, rl') := Limiter.allow (mono_allow e) ip rl in
          (ok, set_limiter (Some rl') s)
      | None => (true, s)
      end in
    let '(ok, s) := verdict in
    if negb ok then
      (* send_error comes first, outside the try: what it raises leaves
         do_GET before the call of _log *)
      match reject_failure e with
      | Some x => (s, Raise x)
      | None =>
          (_log ip "GET" (path r) 429 0 (_inflight_peek s) (wall_first e)
                (thread_name e) s,
           Ok (SendError 429 "Rate limit exceeded"))
      end
    else
      let s := _inflight_inc s in
      let '(s, _last_status, out) := try_block e r s in
      match out with
      | Raise x =>
          (* except Exception: log, then re-raise through finally *)
          let dur_ms := ((mono_except e - mono_start e) * 1000)%Q in
          let infl := _inflight_peek s in
          let status := default 499%Z _last_status in
          let s := _log ip "GET" (path r) status dur_ms infl (wall_first e)
                        (thread_name e) s in
          (finally_clause e r ip (wall_second e) _last_status s, Raise x)
      | Ok resp =>
          (finally_clause e r ip (wall_first e) _last_status s, Ok resp)
      end.

End Library.

(** The class attributes right after [make_server(cfg)], for a
    configuration the limiter accepts. *)
Definition make_shared (naive threaded xff : bool) (d rps burst : Q)
  : result Shared :=
  match Limiter.__init__ rps burst with
  | Raise x => Raise x
  | Ok rl =>
      Ok {| counter := Some (if naive then Naive NaiveCounter.__init__
                             else Locked LockedCounter.__init__);
            limiter := Some rl; delay := d; trust_xff := xff;
            server_threaded := threaded;
            inflight := 0; logs := []; log_seq := 0 |}
  end.

End RequestHandler.

(** ** Plain instances of the library functions

    [RequestHandler] takes [urlsplit], [parse_qs] and [int] as arguments.
    The instances below cover the request targets of the examples:
    origin-form paths without percent escapes and decimal literals of
    ASCII digits. *)
Module PyLib.

(** [s.partition(sep)]: the text before the first [sep] and, when [sep]
    occurs, the text after it. *)
Fixpoint cut (sep : Ascii.ascii) (s : string) : string * option string :=
  match s with
  | EmptyString => (EmptyString, None)
  | String c rest =>
      if Ascii.eqb c sep then (EmptyString, Some rest)
      else let '(a, b) := cut sep rest in (String c a, b)
  end.

(** [s.split(sep)] *)
Fixpoint split_on (sep : Ascii.ascii) (s : string) : list string :=
  match s with
  | EmptyString => [EmptyString]
  | String c rest =>
      if Ascii.eqb c sep then EmptyString :: split_on sep rest
      else match split_on sep rest with
           | h :: t => String c h :: t
           | [] => [String c EmptyString]
           end
  end.

Definition hash : Ascii.ascii := Ascii.ascii_of_nat 35.
Definition question : Ascii.ascii := Ascii.ascii_of_nat 63.
Definition ampersand : Ascii.ascii := Ascii.ascii_of_nat 38.
Definition equals : Ascii.ascii := Ascii.ascii_of_nat 61.

Definition slash : Ascii.ascii := Ascii.ascii_of_nat 47.
Definition lbracket : Ascii.ascii := Ascii.ascii_of_nat 91.
Definition rbracket : Ascii.ascii := Ascii.ascii_of_nat 93.

(** [c in s] *)
Fixpoint contains (c : Ascii.ascii) (s : string) : bool :=
  match s with
  | EmptyString => false
  | String d rest => Ascii.eqb c d || contains c rest
  end.

(** [_splitnetloc]: the host part runs up to the first of [/], [?], [#]. *)
Fixpoint split_netloc (s : string) : string * string :=
  match s with
  | EmptyString => (EmptyString, EmptyString)
  | String c rest =>
      if Ascii.eqb c slash || Ascii.eqb c question || Ascii.eqb c hash
      then (EmptyString, s)
      else let '(a, b) := split_netloc rest in (String c a, b)
  end.

(** [urlsplit(p).path] of a target without a scheme: after a leading [//]
    comes the host part, refused with [ValueError] when only one of its
    brackets is there; the path is what precedes the fragment and the
    query. *)
Definition urlsplit_path (p : string) : result string :=
  let '(netloc, rest) :=
    if String.prefix "//" p
    then split_netloc (String.substring 2 (String.length p - 2) p)
    else (EmptyString, p) in
  if xorb (contains lbracket netloc) (contains rbracket netloc)
  then Raise (ValueError "Invalid IPv6 URL")
  else Ok (cut question (cut hash rest).1).1.

(** [urlparse(p).query] of an origin-form target. *)
Definition query_of (p : string) : string :=
  default EmptyString (cut question (cut hash p).1).2.

(** [parse_qsl] without percent decoding: fields are separated by [&]; a
    field without [=] or with an empty value is skipped. *)
Definition parse_qsl (query : string) : list (string * string) :=
  omap (λ field,
          match cut equals field with
          | (name, Some value) =>
              if String.eqb value "" then None else Some (name, value)
          | (_, None) => None
          end)
       (split_on ampersand query).

(** [parse_qs]: the values of each name, in order. *)
Definition parse_qs (query : string) : gmap string (list string) :=
  foldl (λ m nv, <[nv.1 := default [] (m !! nv.1) ++ [nv.2]]> m)
        ∅ (parse_qsl query).

Definition parse_qs_query (p : string) : gmap string (list string) :=
  parse_qs (query_of p).

Definition digit_of (c : Ascii.ascii) : option Z :=
  let n := Ascii.nat_of_ascii c in
  if (48 <=? n) && (n <=? 57) then Some (Z.of_nat (n - 48)) else None.

Fixpoint digits (acc : Z) (s : string) : option Z :=
  match s with
  | EmptyString => Some acc
  | String c rest =>
      match digit_of c with
      | Some d => digits (acc * 10 + d)%Z rest
      | None => None
      end
  end.

(** [int(s)] on decimal literals: optional surrounding whitespace, an
    optional sign, then one or more ASCII digits. *)
Definition int_of_str (s : string) : option Z :=
  match strip s with
  | EmptyString => None
  | String c rest =>
      if Ascii.eqb c (Ascii.ascii_of_nat 45)
      then (if String.eqb rest "" then None else Z.opp <$> digits 0 rest)
      else if Ascii.eqb c (Ascii.ascii_of_nat 43)
      then (if String.eqb rest "" then None else digits 0 rest)
      else digits 0 (String c rest)
  end.

End PyLib.

(** ** Concrete inputs of the examples *)
Module Examples.
Import RequestHandler.

Definition ip : string := "1.2.3.4".

(** [RateLimiter(rps=5.0, burst=5)], as in [tests/test_rate_limiter.py]. *)
Definition limiter55 : Limiter.RateLimiter :=
  {| Limiter._rps := 5; Limiter._burst := 5; Limiter._buckets := ∅ |}.

(** Five immediate calls. *)
Definition five_calls : list (Q * string) := replicate 5 (0%Q, ip).


(** Three workers on ["/foo"]; worker 1 and worker 2 find the lock taken
    on their first attempts. *)
Definition locked_schedule : list nat :=
  [0; 1; 0; 2; 0; 1; 0; 1; 2; 1; 1; 1; 2; 2; 2; 2].

Definition shared0 : Shared :=
  {| counter := Some (Locked LockedCounter.__init__);
     limiter := Some {| Limiter._rps := 5; Limiter._burst := 10;
                        Limiter._buckets := ∅ |};
     delay := 1; trust_xff := false; server_threaded := true;
     inflight := 0; logs := []; log_seq := 0 |}.

(** A limiter whose only bucket is empty. *)
Definition drained : Shared :=
  {| counter := Some (Locked (LockedCounter.inc "/index.html"
                                LockedCounter.__init__));
     limiter := Some {| Limiter._rps := 1; Limiter._burst := 1;
                        Limiter._buckets :=
                          {[ ip := Limiter.mkBucket 0 0 ]} |};
     delay := 1; trust_xff := false; server_threaded := true;
     inflight := 0; logs := []; log_seq := 0 |}.

Definition env0 : Env :=
  {| mono_allow := 0; mono_start := 0; mono_except := 1 # 4;
     mono_finally := 1 # 2; wall_first := 1700000000;
     wall_second := 1700000001; thread_name := "Thread-1";
     listdir := Some [("index.html", false); ("img", true)];
     write_failure := None; reject_failure := None;
     static_status := Some 200%Z;
     static_failure := None; fire_ok := 0 |}.

(** The peer asks for a name with an embedded NUL: [open] inside
    [super().do_GET()] raises [ValueError] before any status is sent. *)
Definition failing_env : Env :=
  {| mono_allow := 0; mono_start := 0; mono_except := 1 # 4;
     mono_finally := 1 # 2; wall_first := 1700000000;
     wall_second := 1700000001; thread_name := "Thread-1";
     listdir := None; write_failure := None; reject_failure := None;
     static_status := None;
     static_failure := Some (ValueError "embedded null byte");
     fire_ok := 0 |}.

Definition failing_request : Request :=
  {| path := "/a%00b"; client_address := ip; x_forwarded_for := None |}.

Definition index_request : Request :=
  {| path := "/index.html"; client_address := ip; x_forwarded_for := None |}.

Definition logs_request : Request :=
  {| path := "/api/logs?since=abc&x=1"; client_address := ip;
     x_forwarded_for := None |}.


(** The peer has closed the connection before the answer is written. *)
Definition vanished_env : Env :=
  {| mono_allow := 0; mono_start := 0; mono_except := 1 # 4;
     mono_finally := 1 # 2; wall_first := 1700000000;
     wall_second := 1700000001; thread_name := "Thread-1";
     listdir := Some [("index.html", false); ("img", true)];
     write_failure := Some (OSError "Broken pipe");
     reject_failure := Some (OSError "Broken pipe");
     static_status := Some 200%Z;
     static_failure := Some (OSError "Broken pipe"); fire_ok := 0 |}.

Definition three_calls : list LogCall :=
  [ mkLogCall ip "GET" "/" 200 1000 1 1700000000 "Thread-1";
    mkLogCall ip "GET" "/index.html" 200 1001 0 1700000002 "Thread-2";
    mkLogCall ip "GET" "/index.html" 429 0 0 1700000003 "Thread-3" ].

(** [do_GET] with the plain library instances. *)
Definition py_do_GET (e : Env) (r : Request) (s : Shared)
  : Shared * result Response :=
  do_GET PyLib.urlsplit_path PyLib.parse_qs_query PyLib.int_of_str e r s.

(** The limiter of [drained]. *)
Definition drained_limiter : Limiter.RateLimiter :=
  {| Limiter._rps := 1; Limiter._burst := 1;
     Limiter._buckets := {[ ip := Limiter.mkBucket 0 0 ]} |}.

End Examples.

(** ** Further definitions: schedules, request runs *)

Module CounterX.
(** What a dict holding [old] under a key holds there after [n] more
    increments. *)
Definition bumped (old : option Z) (n : nat) : option Z :=
  if n is 0 then old else Some (default 0%Z old + Z.of_nat n)%Z.

(** [counter.inc(k)] for each [k] of a list, in order. *)
Definition inc_all (keys : list string) (c : Counter) : Counter :=
  foldl (λ c k, counter_inc k c) c keys.

(** Each worker reads and writes before the next one starts. *)
Definition naive_serial (n : nat) : list nat :=
  flat_map (λ i, [i; i]) (seq 0 n).

(** The naive invariant from below: values read are not negative, and once
    a call has finished the key holds at least 1. *)
Definition naive_low (key : string) (w : NaiveCounter.world) : Prop :=
  Forall (λ p, p.1 = key ∧ ∀ c, p.2 = NaiveCounter.Sleeping c → (0 ≤ c)%Z)
         (NaiveCounter.workers w) ∧
  (∀ v, NaiveCounter._counts w !! key = Some v → (1 ≤ v)%Z) ∧
  (NaiveCounter._counts w !! key = None →
   count NaiveCounter.is_finished (NaiveCounter.workers w) = 0).
End CounterX.

Module LockedX.
Import LockedCounter.

(** Where four steps in a row take a worker, and the lock. *)
Definition quad (locked : bool) (p : pc) : bool * pc :=
  match p with
  | Ready => if locked then (true, Ready) else (false, Finished)
  | Finished => (locked, Finished)
  | _ => (false, Finished)
  end.

(** One pass of four steps per worker, first to last. *)
Fixpoint sweep (locked : bool) (l : list (string * pc))
  : bool * list (string * pc) :=
  match l with
  | [] => (locked, [])
  | (k, p) :: rest =>
      let '(locked1, p1) := quad locked p in
      let '(locked2, rest') := sweep locked1 rest in
      (locked2, (k, p1) :: rest')
  end.
End LockedX.

Module ServerX.
Import RequestHandler.

(** [/__counts] and the paths under [/api/]: answered without the limiter,
    the inflight count and the log. *)
Definition is_admin (p : string) : bool :=
  String.eqb p "/__counts" || String.prefix "/api/" p.

(** The verdict of the limiter on a request, when there is a limiter. *)
Definition lets_in (e : Env) (r : Request) (s : Shared) : bool :=
  match limiter s with
  | Some rl => (Limiter.allow (mono_allow e) (client_key s r) rl).1
  | None => true
  end.

(** The status a response carries; 200 when the library sent none. *)
Definition response_status (resp : Response) : Z :=
  match resp with
  | SendError code _ => code
  | SendJson code _ => code
  | SendListing code _ => code
  | SendStatic code => default 200%Z code
  end.

(** The log is what some sequence of [_log] calls from the initial class
    state leaves. *)
Definition log_wf (s : Shared) : Prop :=
  ∃ calls,
    logs s = last_items (Z.of_nat logs_maxlen) (entries_from 0 calls) ∧
    log_seq s = Z.of_nat (length calls).

Section Runs.
Variable urlsplit_path : string → result string.
Variable parse_qs_query : string → gmap string (list string).
Variable int_of_str : string → option Z.

(** Requests handled one after the other. *)
Fixpoint serve (reqs : list (Env * Request)) (s : Shared)
  : Shared * list (result Response) :=
  match reqs with
  | [] => (s, [])
  | (e, r) :: rest =>
      let '(s1, out) :=
        do_GET urlsplit_path parse_qs_query int_of_str e r s in
      let '(s2, outs) := serve rest s1 in
      (s2, out :: outs)
  end.
End Runs.
End ServerX.

Module MoreExamples.
Import RequestHandler.

(** Calls from two other peers. *)
Definition other_calls : list (Q * string) :=
  [(0%Q, "5.6.7.8"); (1%Q, "9.9.9.9")].

(** Worker 0 runs to the end while workers 1 and 2 find the lock taken. *)
Definition partial_schedule : list nat := [0; 1; 0; 0; 2; 0].



(** [serve] with the plain library instances. *)
Definition py_serve (reqs : list (Env * Request)) (s : Shared)
  : Shared * list (result Response) :=
  ServerX.serve PyLib.urlsplit_path PyLib.parse_qs_query PyLib.int_of_str
    reqs s.

Definition three_requests : list (Env * Request) :=
  [ (Examples.env0, Examples.index_request);
    (Examples.failing_env, Examples.failing_request);
    (Examples.env0, Examples.logs_request) ].

End MoreExamples.

(** * Properties *)

(** ** Comparisons on rationals *)


Lemma Qgt_bool_false x y : Qgt_bool x y = false ↔ (x <= y)%Q.
Proof.
  unfold Qgt_bool. rewrite negb_false_iff. apply Qle_bool_iff.
Qed.




(** ** Counting *)

Section Count.
Context {A : Type} (P : A → bool).

Lemma count_app l1 l2 : count P (l1 ++ l2) = count P l1 + count P l2.
Proof. unfold count. by rewrite List.filter_app, length_app. Qed.

Lemma count_cons x l : count P (x :: l) = (if P x then 1 else 0) + count P l.
Proof. unfold count. simpl. by destruct (P x). Qed.

Lemma count_le_length l : count P l ≤ length l.
Proof. unfold count. apply List.filter_length_le. Qed.

Lemma count_insert l i x y :
  l !! i = Some x →
  count P (<[i := y]> l) + (if P x then 1 else 0)
  = count P l + (if P y then 1 else 0).
Proof.
  intros Hi. pose proof (lookup_lt_Some _ _ _ Hi) as Hlt.
  rewrite insert_take_drop by done.
  rewrite <- (take_drop_middle l i x Hi) at 3.
  rewrite !count_app, !count_cons. lia.
Qed.

Lemma count_zero l : count P l = 0 → Forall (λ x, P x = false) l.
Proof.
  induction l as [|x l IH]; [constructor |].
  rewrite count_cons. destruct (P x) eqn:E; [lia |].
  intros H. constructor; [done | by apply IH].
Qed.

Lemma count_replicate_false n x : P x = false → count P (replicate n x) = 0.
Proof.
  intros H. induction n as [|n IH]; [done |]. simpl.
  rewrite count_cons, H. done.
Qed.

End Count.

(** ** The rate limiter *)

Module LimiterFacts.
Import Limiter.

(** One call keeps the parameters and touches one key only. *)
Lemma allow_params now ip rl :
  _rps (allow now ip rl).2 = _rps rl ∧ _burst (allow now ip rl).2 = _burst rl.
Proof. unfold allow. by repeat case_match. Qed.

Lemma allow_other now ip rl k :
  k ≠ ip → _buckets (allow now ip rl).2 !! k = _buckets rl !! k.
Proof.
  intros Hk. unfold allow.
  repeat case_match; simpl; by rewrite lookup_insert_ne.
Qed.

(** The verdict and the bucket left under the key, in terms of the bucket
    the call started from. *)
Lemma allow_unfold now ip rl :
  let b := start_bucket now ip rl in
  let elapsed := (now - last_refill b)%Q in
  let b1 := if Qgt_bool elapsed 0
            then {| tokens := py_min (_burst rl) (tokens b + elapsed * _rps rl);
                    last_refill := now |}
            else b in
  (allow now ip rl).1 = Qle_bool 1 (tokens b1) ∧
  _buckets (allow now ip rl).2 !! ip =
    Some (if Qle_bool 1 (tokens b1)
          then {| tokens := (tokens b1 - 1)%Q; last_refill := last_refill b1 |}
          else b1).
Proof.
  unfold start_bucket, allow.
  destruct (_buckets rl !! ip) as [b|]; simpl;
    repeat case_match; simpl; by rewrite lookup_insert_eq.
Qed.



Lemma allow_all_params calls : ∀ rl,
  _rps (allow_all calls rl).2 = _rps rl ∧
  _burst (allow_all calls rl).2 = _burst rl.
Proof.
  induction calls as [|[now ip] rest IH]; intros rl; simpl; [done |].
  pose proof (allow_params now ip rl) as [H1 H2].
  destruct (allow now ip rl) as [ok rl1]; simpl in *.
  specialize (IH rl1).
  destruct (allow_all rest rl1) as [oks rl2]; simpl in *.
  destruct IH. split; congruence.
Qed.


Example five_pass_sixth_fails :
  (allow_all (Examples.five_calls ++ [(0%Q, Examples.ip)])
             Examples.limiter55).1
  = [true; true; true; true; true; false].
Proof. vm_compute. reflexivity. Qed.





End LimiterFacts.

(** ** The rate limiter in double precision *)

Module FloatLimiterFacts.
Import Floats.PrimFloat Floats.FloatAxioms Floats.SpecFloat Floats.FloatOps.
Import FloatLimiter.

(** [x - x] is a zero or a NaN: never positive. *)
Lemma sub_self_not_pos (x : float) : (0 <? x - x)%float = false.
Proof.
  rewrite ltb_spec, sub_spec.
  change (Prim2SF 0) with (S754_zero false).
  destruct (Prim2SF x) as [sx|sx| |sx mx ex]; try (destruct sx; reflexivity);
    [reflexivity |].
  unfold SF64sub, SFsub. cbv zeta. rewrite Z.min_id, Z.sub_diag. reflexivity.
Qed.

(** The verdict and the bucket left under the key, in terms of the bucket
    the call works on. *)
Lemma float_allow_unfold now ip rl :
  let b := default {| tokens := _burst rl; last_refill := now |}
                   (_buckets rl !! ip) in
  let elapsed := (now - last_refill b)%float in
  let b1 := if (0 <? elapsed)%float
            then {| tokens :=
                      py_min (_burst rl) (tokens b + elapsed * _rps rl)%float;
                    last_refill := now |}
            else b in
  (allow now ip rl).1 = (1 <=? tokens b1)%float ∧
  _buckets (allow now ip rl).2 !! ip =
    Some (if (1 <=? tokens b1)%float
          then {| tokens := (tokens b1 - 1)%float;
                  last_refill := last_refill b1 |}
          else b1).
Proof.
  unfold allow.
  destruct (_buckets rl !! ip) as [b|]; simpl;
    repeat case_match; simpl in *; try congruence;
    by rewrite lookup_insert_eq.
Qed.

Lemma float_allow_other now ip rl k :
  k ≠ ip → _buckets (allow now ip rl).2 !! k = _buckets rl !! k.
Proof.
  intros Hk. unfold allow.
  repeat case_match; simpl; by rewrite lookup_insert_ne.
Qed.

Lemma float_allow_params now ip rl :
  _rps (allow now ip rl).2 = _rps rl ∧ _burst (allow now ip rl).2 = _burst rl.
Proof. unfold allow. by repeat case_match. Qed.

(** C2, counterexample. (1) A worker reads the clock at 0 and is
    overtaken, before it takes the lock, by a call that read the clock at
    1: [allow] lets it in where the contract, refilling by the negative
    elapsed time, refuses it. (2) With [burst = 2**54] the first call is
    let in and the bucket still holds [2**54] tokens: the subtraction of
    [1.0] is rounded away. *)
Lemma allow_breaks_contract :
  (let rl := (allow 1 "1.2.3.4" limiter55).2 in
   (allow 0 "1.2.3.4" rl).1 = true ∧
   (contract_allow 0 "1.2.3.4" rl).1 = false) ∧
  (allow 0 "1.2.3.4" limiter_huge).1 = true ∧
  _buckets (allow 0 "1.2.3.4" limiter_huge).2 !! "1.2.3.4"
    = Some {| tokens := _burst limiter_huge; last_refill := 0 |}.
Proof. vm_compute. repeat split; reflexivity. Qed.

(** C2, with the guard of the source. One call of [allow] with the clock
    reading [now] works on the bucket stored under the key or, for a key
    not seen before, on a new one with [burst] tokens stamped [now]; such
    a first call is let in exactly when [burst >= 1], and leaves
    [burst - 1.0] tokens then. When [now] is after the bucket's
    [last_refill], the call returns the verdict of the contract and stores
    the bucket of the contract: tokens refilled to
    [min(burst, tokens + elapsed * rps)], [last_refill = now], one token
    subtracted in double precision when the refilled count is at least 1.
    Otherwise the bucket is not refilled and its [last_refill] stays: the
    verdict is [tokens >= 1] on the bucket as it is, [tokens - 1.0] is
    stored when the call is let in and nothing changes when it is refused.
    No other key changes, nor do [rps] and [burst]. *)
Theorem allow_guarded_contract (now : float) (ip : string) (rl : RateLimiter) :
  let b := default {| tokens := _burst rl; last_refill := now |}
                   (_buckets rl !! ip) in
  let out := allow now ip rl in
  (_buckets rl !! ip = None →
     out.1 = (1 <=? _burst rl)%float ∧
     _buckets out.2 !! ip =
       Some {| tokens := if (1 <=? _burst rl)%float
                         then (_burst rl - 1)%float else _burst rl;
               last_refill := now |}) ∧
  ((0 <? now - last_refill b)%float = true →
     out.1 = (contract_allow now ip rl).1 ∧
     _buckets out.2 !! ip = Some (contract_allow now ip rl).2) ∧
  ((0 <? now - last_refill b)%float = false →
     out.1 = (1 <=? tokens b)%float ∧
     _buckets out.2 !! ip =
       Some (if (1 <=? tokens b)%float
             then {| tokens := (tokens b - 1)%float;
                     last_refill := last_refill b |}
             else b)) ∧
  (∀ k, k ≠ ip → _buckets out.2 !! k = _buckets rl !! k) ∧
  _rps out.2 = _rps rl ∧ _burst out.2 = _burst rl.
Proof.
  intros b out. destruct (float_allow_unfold now ip rl) as [Ev Eb].
  cbv zeta in Ev, Eb. fold b in Ev, Eb. fold out in Ev, Eb.
  split; [| split; [| split; [| split]]].
  - intros En. rewrite Ev, Eb. subst b. rewrite En. simpl.
    rewrite sub_self_not_pos. simpl. by destruct (1 <=? _burst rl)%float.
  - intros Eg. rewrite Ev, Eb, Eg. unfold contract_allow. fold b. simpl.
    by destruct (1 <=? py_min _ _)%float.
  - intros Eg. rewrite Ev, Eb, Eg. done.
  - intros k Hk. by apply float_allow_other.
  - apply float_allow_params.
Qed.

(** The three cases on the limiter of the tests: a first call at clock 0,
    a call a quarter of a second later, and one with the same reading. *)
Lemma allow_guarded_contract_witness :
  let rl := (allow 0 "1.2.3.4" limiter55).2 in
  ((allow 0 "1.2.3.4" limiter55).1 = true ∧
   _buckets rl !! "1.2.3.4" = Some {| tokens := 4; last_refill := 0 |}) ∧
  ((allow 0.25 "1.2.3.4" rl).1 = (contract_allow 0.25 "1.2.3.4" rl).1 ∧
   _buckets (allow 0.25 "1.2.3.4" rl).2 !! "1.2.3.4"
     = Some (contract_allow 0.25 "1.2.3.4" rl).2) ∧
  ((allow 0 "1.2.3.4" rl).1 = true ∧
   _buckets (allow 0 "1.2.3.4" rl).2 !! "1.2.3.4"
     = Some {| tokens := 3; last_refill := 0 |}).
Proof.
  split; [| split].
  - apply (proj1 (allow_guarded_contract 0 "1.2.3.4" limiter55)).
    vm_compute. reflexivity.
  - apply (proj1 (proj2 (allow_guarded_contract 0.25 "1.2.3.4"
                           (allow 0 "1.2.3.4" limiter55).2))).
    vm_compute. reflexivity.
  - apply (proj1 (proj2 (proj2 (allow_guarded_contract 0 "1.2.3.4"
                                  (allow 0 "1.2.3.4" limiter55).2)))).
    vm_compute. reflexivity.
Defined.

(** A quarter of a second refills [0.25 * 5] tokens, capped at 5. *)
Example refill_after_quarter_second :
  _buckets (allow 0.25 "1.2.3.4" (allow 0 "1.2.3.4" limiter55).2).2
    !! "1.2.3.4"
  = Some {| tokens := 4; last_refill := 0.25 |}.
Proof. vm_compute. reflexivity. Qed.

End FloatLimiterFacts.

(** ** The counter without a lock *)

Module NaiveFacts.
Import NaiveCounter.

Lemma naive_step_length i w : length (workers (step i w)) = length (workers w).
Proof.
  unfold step. repeat case_match; simpl; by rewrite ?length_insert.
Qed.

Lemma naive_run_length schedule : ∀ w,
  length (workers (run schedule w)) = length (workers w).
Proof.
  induction schedule as [|i rest IH]; intros w; simpl; [done |].
  unfold run in *. rewrite IH. apply naive_step_length.
Qed.

Lemma naive_step_inv key i w : inv key w → inv key (step i w).
Proof.
  intros (Hk & Hc & Hs). unfold step.
  destruct (workers w !! i) as [[k p]|] eqn:Ei; [| done].
  assert (k = key) as ->.
  { eapply Forall_lookup_1 in Hk; [| exact Ei]. done. }
  destruct p as [|c|]; [| | done].
  - (* the read *)
    pose proof (count_insert is_finished _ _ _
                  (key, Sleeping (inc_read key (_counts w))) Ei) as Hn.
    cbn in Hn. rewrite !Nat.add_0_r in Hn.
    split; [| split]; simpl.
    + by apply Forall_insert.
    + by rewrite Hn.
    + rewrite Hn. apply Forall_insert; [done |].
      simpl. intros c [= <-]. done.
  - (* the write *)
    pose proof (count_insert is_finished _ _ _ (key, Finished) Ei) as Hn.
    cbn in Hn. rewrite Nat.add_0_r in Hn.
    assert (Hci : (c ≤ Z.of_nat (count is_finished (workers w)))%Z).
    { eapply Forall_lookup_1 in Hs; [| exact Ei]. by apply Hs. }
    split; [| split]; simpl.
    + by apply Forall_insert.
    + unfold inc_write. rewrite lookup_insert_eq. simpl. rewrite Hn. lia.
    + rewrite Hn. apply Forall_insert; [| done].
      eapply Forall_impl; [exact Hs |]. simpl. intros p Hp c' E.
      specialize (Hp c' E). lia.
Qed.

Lemma naive_run_inv key schedule : ∀ w, inv key w → inv key (run schedule w).
Proof.
  induction schedule as [|i rest IH]; intros w Hw; simpl; [done |].
  apply IH. by apply naive_step_inv.
Qed.

Lemma naive_spawn_inv n key : inv key (spawn n key).
Proof.
  unfold inv, spawn. simpl.
  rewrite count_replicate_false by done.
  split; [| split].
  - by apply Forall_replicate.
  - unfold __init__. by rewrite lookup_empty.
  - by apply Forall_replicate.
Qed.

(** The stored count never exceeds the number of increments. *)
Lemma naive_upper_bound n key schedule :
  (default 0 (snapshot (_counts (run schedule (spawn n key))) !! key)
   ≤ Z.of_nat n)%Z.
Proof.
  pose proof (naive_run_inv key schedule _ (naive_spawn_inv n key))
    as (_ & Hc & _).
  pose proof (count_le_length is_finished
                (workers (run schedule (spawn n key)))) as Hle.
  rewrite naive_run_length in Hle.
  change (workers (spawn n key)) with (replicate n (key, Ready)) in Hle.
  rewrite length_replicate in Hle. unfold snapshot. lia.
Qed.

Lemma step_ready key c l1 l2 :
  step (length l1) {| _counts := c; workers := l1 ++ (key, Ready) :: l2 |}
  = {| _counts := c;
       workers := l1 ++ (key, Sleeping (inc_read key c)) :: l2 |}.
Proof.
  unfold step. simpl. rewrite list_lookup_middle by done.
  f_equal. rewrite insert_app_r_alt by lia. by rewrite Nat.sub_diag.
Qed.

Lemma step_sleeping key c v l1 l2 :
  step (length l1) {| _counts := c; workers := l1 ++ (key, Sleeping v) :: l2 |}
  = {| _counts := inc_write key v c;
       workers := l1 ++ (key, Finished) :: l2 |}.
Proof.
  unfold step. simpl. rewrite list_lookup_middle by done.
  f_equal. rewrite insert_app_r_alt by lia. by rewrite Nat.sub_diag.
Qed.

(** First half of the racy schedule: every worker reads the same value. *)
Lemma run_reads key c b : ∀ l1,
  run (seq (length l1) b)
      {| _counts := c; workers := l1 ++ replicate b (key, Ready) |}
  = {| _counts := c;
       workers := l1 ++ replicate b (key, Sleeping (inc_read key c)) |}.
Proof.
  induction b as [|b IH]; intros l1; [done |].
  change (run (seq (length l1) (S b)) ?w)
    with (run (seq (S (length l1)) b) (step (length l1) w)).
  change (replicate (S b) ?x) with (x :: replicate b x).
  rewrite step_ready.
  specialize (IH (l1 ++ [(key, Sleeping (inc_read key c))])).
  rewrite length_app, Nat.add_1_r, <- !app_assoc in IH. exact IH.
Qed.

(** Second half: every worker writes the value it read, plus one. *)
Lemma run_writes key v b : ∀ c l1,
  run (seq (length l1) b)
      {| _counts := c; workers := l1 ++ replicate b (key, Sleeping v) |}
  = {| _counts := if b is 0 then c else inc_write key v c;
       workers := l1 ++ replicate b (key, Finished) |}.
Proof.
  induction b as [|b IH]; intros c l1; [done |].
  change (run (seq (length l1) (S b)) ?w)
    with (run (seq (S (length l1)) b) (step (length l1) w)).
  change (replicate (S b) ?x) with (x :: replicate b x).
  rewrite step_sleeping.
  specialize (IH (inc_write key v c) (l1 ++ [(key, Finished)])).
  rewrite length_app, Nat.add_1_r, <- !app_assoc in IH.
  refine (eq_trans IH _). f_equal. destruct b; [done |].
  unfold inc_write. by rewrite insert_insert_eq.
Qed.

Lemma racy_schedule_result n key :
  run (racy_schedule n) (spawn n key)
  = {| _counts := if n is 0 then ∅ else {[ key := 1%Z ]};
       workers := replicate n (key, Finished) |}.
Proof.
  unfold racy_schedule, run. rewrite foldl_app.
  pose proof (run_reads key __init__ n []) as H1.
  pose proof (run_writes key (inc_read key __init__) n __init__ []) as H2.
  unfold run in H1, H2. simpl in H1, H2. unfold spawn.
  rewrite H1, H2. by destruct n.
Qed.

(** C4. For [n >= 2] concurrent calls of [NaiveCounter.inc] on one key of
    a fresh counter there is an interleaving in which all calls finish and
    the snapshot holds less than [n] under the key; and in every
    interleaving, at every moment, the stored count is at most [n]. *)
Theorem naive_lost_update (n : nat) (key : string) :
  2 ≤ n →
  (∃ schedule v,
      all_finished (run schedule (spawn n key)) = true ∧
      snapshot (_counts (run schedule (spawn n key))) !! key = Some v ∧
      (v < Z.of_nat n)%Z) ∧
  (∀ schedule,
      (default 0 (snapshot (_counts (run schedule (spawn n key))) !! key)
       ≤ Z.of_nat n)%Z).
Proof.
  intros Hn. split; [| intros; apply naive_upper_bound].
  exists (racy_schedule n), 1%Z. rewrite racy_schedule_result.
  destruct n as [|n]; [lia |]. split; [| split].
  - unfold all_finished. simpl. clear Hn.
    induction n as [|n IH]; [done |]. exact IH.
  - unfold snapshot. simpl. by rewrite lookup_singleton_eq.
  - lia.
Qed.

Lemma naive_lost_update_witness :
  2 ≤ 3 ∧
  (∃ schedule v,
      all_finished (run schedule (spawn 3 "/foo")) = true ∧
      snapshot (_counts (run schedule (spawn 3 "/foo"))) !! "/foo" = Some v ∧
      (v < Z.of_nat 3)%Z) ∧
  (∀ schedule,
      (default 0 (snapshot (_counts (run schedule (spawn 3 "/foo"))) !! "/foo")
       ≤ Z.of_nat 3)%Z).
Proof.
  split; [lia |]. apply (naive_lost_update 3 "/foo"). lia.
Defined.

(** Three workers, all reading before any writes: one increment is kept. *)
Example three_racing_workers :
  snapshot (_counts (run [0; 1; 2; 0; 1; 2] (spawn 3 "/foo"))) !! "/foo"
  = Some 1%Z.
Proof. vm_compute. reflexivity. Qed.

End NaiveFacts.

(** ** The counter with a lock *)

Module LockedFacts.
Import LockedCounter.

Lemma stored_value_default n : default 0%Z (stored_value n) = Z.of_nat n.
Proof. by destruct n. Qed.

(** With at most one worker inside, the others are outside. *)
Lemma sole_inside (l : list (string * pc)) i x y :
  count inside l ≤ 1 → l !! i = Some x → inside x = true →
  <[i := y]> l = take i l ++ y :: drop (S i) l ∧
  Forall (λ p, inside p = false) (take i l) ∧
  Forall (λ p, inside p = false) (drop (S i) l).
Proof.
  intros Hc Hi Hx. pose proof (lookup_lt_Some _ _ _ Hi) as Hlt.
  split; [by apply insert_take_drop |].
  rewrite <- (take_drop_middle l i x Hi) in Hc.
  rewrite count_app, count_cons, Hx in Hc.
  split; apply count_zero; lia.
Qed.

Lemma locked_step_length i w :
  length (workers (step i w)) = length (workers w).
Proof.
  unfold step. repeat case_match; simpl; by rewrite ?length_insert.
Qed.

Lemma locked_run_length schedule : ∀ w,
  length (workers (run schedule w)) = length (workers w).
Proof.
  induction schedule as [|i rest IH]; intros w; simpl; [done |].
  unfold run in *. rewrite IH. apply locked_step_length.
Qed.

Lemma locked_step_inv key i w : inv key w → inv key (step i w).
Proof.
  intros (Hk & Hin & Hc & Hl). unfold step.
  destruct (workers w !! i) as [[k p]|] eqn:Ei; [| done].
  assert (k = key) as ->.
  { eapply Forall_lookup_1 in Hk; [| exact Ei]. done. }
  destruct p as [| |c| |].
  - (* acquire *)
    destruct (_lock w) eqn:El; [by repeat split; try rewrite El |].
    pose proof (count_insert inside _ _ _ (key, Entered) Ei) as Hi.
    pose proof (count_insert wrote _ _ _ (key, Entered) Ei) as Hw.
    cbn in Hi, Hw. rewrite !Nat.add_0_r in Hw.
    repeat split; simpl.
    + by apply Forall_insert.
    + lia.
    + by rewrite Hw.
    + rewrite Hw. by apply Forall_insert.
  - (* read *)
    pose proof (count_insert inside _ _ _
                  (key, Fetched (default 0%Z (_counts w !! key))) Ei) as Hi.
    pose proof (count_insert wrote _ _ _
                  (key, Fetched (default 0%Z (_counts w !! key))) Ei) as Hw.
    cbn in Hi, Hw. rewrite !Nat.add_0_r in Hw.
    repeat split; simpl.
    + by apply Forall_insert.
    + lia.
    + by rewrite Hw.
    + rewrite Hw. apply Forall_insert; [done |]. simpl.
      intros c [= <-]. rewrite Hc. apply stored_value_default.
  - (* write *)
    pose proof (count_insert inside _ _ _ (key, Stored) Ei) as Hi.
    pose proof (count_insert wrote _ _ _ (key, Stored) Ei) as Hw.
    cbn in Hi, Hw. rewrite !Nat.add_0_r in Hw.
    assert (Hcv : c = Z.of_nat (count wrote (workers w))).
    { eapply Forall_lookup_1 in Hl; [| exact Ei]. by apply Hl. }
    assert (Hle : count inside (workers w) ≤ 1) by (destruct (_lock w); lia).
    destruct (sole_inside _ i _ (key, Stored) Hle Ei eq_refl)
      as (Eins & Ht & Hd).
    repeat split; simpl.
    + by apply Forall_insert.
    + lia.
    + rewrite lookup_insert_eq, Hw, Nat.add_1_r. simpl.
      f_equal. lia.
    + rewrite Eins. apply Forall_app. split; [| constructor].
      * eapply Forall_impl; [exact Ht |]. intros [k p] Hp c' E.
        simpl in E. subst p. discriminate.
      * simpl. discriminate.
      * eapply Forall_impl; [exact Hd |]. intros [k p] Hp c' E.
        simpl in E. subst p. discriminate.
  - (* release *)
    pose proof (count_insert inside _ _ _ (key, Finished) Ei) as Hi.
    pose proof (count_insert wrote _ _ _ (key, Finished) Ei) as Hw.
    cbn in Hi, Hw. rewrite !Nat.add_0_r in Hi.
    repeat split; simpl.
    + by apply Forall_insert.
    + destruct (_lock w); lia.
    + replace (count wrote (<[i:=(key, Finished)]> (workers w)))
        with (count wrote (workers w)) by lia. done.
    + replace (count wrote (<[i:=(key, Finished)]> (workers w)))
        with (count wrote (workers w)) by lia.
      by apply Forall_insert.
  - done.
Qed.

Lemma locked_run_inv key schedule : ∀ w, inv key w → inv key (run schedule w).
Proof.
  induction schedule as [|i rest IH]; intros w Hw; simpl; [done |].
  apply IH. by apply locked_step_inv.
Qed.

Lemma locked_spawn_inv n key : inv key (spawn n key).
Proof.
  unfold inv, spawn. simpl.
  rewrite !count_replicate_false by done.
  repeat split; try by apply Forall_replicate.
Qed.

Lemma all_finished_counts w :
  all_finished w = true →
  count wrote (workers w) = length (workers w) ∧ count inside (workers w) = 0.
Proof.
  unfold all_finished. induction (workers w) as [|[k p] l IH]; [done |].
  simpl. intros [Hp Hl]%andb_true_iff. destruct (IH Hl) as [E1 E2].
  rewrite !count_cons, E1, E2. by destruct p.
Qed.

(** With exclusion every finished call has added exactly one. *)
Lemma locked_all_finished n key schedule :
  all_finished (run schedule (spawn n key)) = true →
  _lock (run schedule (spawn n key)) = false ∧
  _counts (run schedule (spawn n key)) !! key = stored_value n.
Proof.
  intros Hf.
  pose proof (locked_run_inv key schedule _ (locked_spawn_inv n key))
    as (_ & Hin & Hc & _).
  destruct (all_finished_counts _ Hf) as [Ew Ei].
  rewrite locked_run_length in Ew.
  change (workers (spawn n key)) with (replicate n (key, Ready)) in Ew.
  rewrite length_replicate in Ew. rewrite Ew in Hc. split; [| done].
  destruct (_lock _); [lia | done].
Qed.

Lemma inc_iter n key : Nat.iter n (inc key) __init__ !! key = stored_value n.
Proof.
  induction n as [|n IH]; [done |]. simpl. unfold inc at 1.
  rewrite lookup_insert_eq, IH, stored_value_default. f_equal. lia.
Qed.

Lemma step_serial key c l1 l2 :
  run [length l1; length l1; length l1; length l1]
    {| _counts := c; _lock := false; workers := l1 ++ (key, Ready) :: l2 |}
  = {| _counts := inc key c; _lock := false;
       workers := l1 ++ (key, Finished) :: l2 |}.
Proof.
  unfold run. simpl foldl.
  assert (Hins : ∀ x y, <[length l1 := y]> (l1 ++ x :: l2) = l1 ++ y :: l2).
  { intros. rewrite insert_app_r_alt by lia. by rewrite Nat.sub_diag. }
  unfold step at 4. simpl. rewrite list_lookup_middle by done. simpl.
  rewrite Hins.
  unfold step at 3. simpl. rewrite list_lookup_middle by done. simpl.
  rewrite Hins.
  unfold step at 2. simpl. rewrite list_lookup_middle by done. simpl.
  rewrite Hins.
  unfold step at 1. simpl. rewrite list_lookup_middle by done. simpl.
  rewrite Hins. done.
Qed.

Lemma run_serial key b : ∀ c l1,
  workers (run (flat_map (λ i, [i; i; i; i]) (seq (length l1) b))
    {| _counts := c; _lock := false;
       workers := l1 ++ replicate b (key, Ready) |})
  = l1 ++ replicate b (key, Finished).
Proof.
  induction b as [|b IH]; intros c l1; [done |].
  change (replicate (S b) ?x) with (x :: replicate b x).
  change (seq (length l1) (S b)) with (length l1 :: seq (S (length l1)) b).
  change (flat_map ?f (?x :: ?l)) with (f x ++ flat_map f l).
  unfold run. rewrite foldl_app.
  pose proof (step_serial key c l1 (replicate b (key, Ready))) as Hs.
  unfold run in Hs. cbv beta. rewrite Hs.
  specialize (IH (inc key c) (l1 ++ [(key, Finished)])).
  rewrite length_app, Nat.add_1_r, <- !app_assoc in IH. exact IH.
Qed.

Lemma serial_schedule_finishes n key :
  all_finished (run (serial_schedule n) (spawn n key)) = true.
Proof.
  pose proof (run_serial key n __init__ []) as H. simpl in H.
  unfold all_finished, serial_schedule, spawn. rewrite H.
  clear H. induction n as [|n IH]; [done |]. exact IH.
Qed.

(** C3. [n] calls of [LockedCounter.inc] on one key of a fresh counter,
    made one after the other, leave [n] under the key. Made by [n]
    concurrent workers, some interleaving lets them all finish, and in
    every interleaving that does, [snapshot()] gets the lock and maps the
    key to exactly [n] (the key is absent only when [n = 0]). *)
Theorem locked_exact (n : nat) (key : string) :
  snapshot (Nat.iter n (inc key) __init__) !! key = stored_value n ∧
  (∃ schedule, all_finished (run schedule (spawn n key)) = true) ∧
  (∀ schedule,
     all_finished (run schedule (spawn n key)) = true →
     ∃ snap, snapshot_in (run schedule (spawn n key)) = Some snap ∧
             snap !! key = stored_value n ∧
             default 0%Z (snap !! key) = Z.of_nat n).
Proof.
  split; [apply inc_iter |]. split.
  - exists (serial_schedule n). apply serial_schedule_finishes.
  - intros schedule Hf.
    destruct (locked_all_finished n key schedule Hf) as [El Ec].
    unfold snapshot_in, snapshot. rewrite El. eexists. split; [done |].
    split; [done |]. rewrite Ec. apply stored_value_default.
Qed.

Lemma locked_exact_witness :
  all_finished (run Examples.locked_schedule (spawn 3 "/foo")) = true ∧
  ∃ snap,
    snapshot_in (run Examples.locked_schedule (spawn 3 "/foo")) = Some snap ∧
    snap !! "/foo" = stored_value 3 ∧
    default 0%Z (snap !! "/foo") = Z.of_nat 3.
Proof.
  split; [vm_compute; reflexivity |].
  apply (proj2 (proj2 (locked_exact 3 "/foo")) Examples.locked_schedule).
  vm_compute. reflexivity.
Defined.

End LockedFacts.

(** ** The plain library instances *)

Module PyLibFacts.
Import PyLib.

Lemma parse_qs_fold pairs : ∀ m : gmap string (list string),
  map_Forall (λ _ vs, vs ≠ []) m →
  map_Forall (λ _ vs, vs ≠ [])
    (foldl (λ m nv, <[nv.1 := default [] (m !! nv.1) ++ [nv.2]]> m) m pairs).
Proof.
  induction pairs as [|[k v] rest IH]; intros m Hm; simpl; [done |].
  apply IH. apply map_Forall_insert_2; [| done].
  by destruct (default [] (m !! k)).
Qed.

(** [parse_qs] never maps a name to an empty list. *)
Lemma parse_qs_values p name : parse_qs_query p !! name ≠ Some [].
Proof.
  intros H. unfold parse_qs_query, parse_qs in H.
  eapply (parse_qs_fold _ ∅) in H; [done | apply map_Forall_empty].
Qed.

End PyLibFacts.

(** ** The request log and the handler *)

Module ServerFacts.
Import RequestHandler.

Section Lists.
Context {A : Type}.
Implicit Types l a b : list A.

Lemma last_items_app_last k a b :
  last_items k (last_items k a ++ b) = last_items k (a ++ b).
Proof.
  unfold last_items. set (n := Z.to_nat k).
  rewrite !length_app, length_drop, !drop_app, drop_drop, length_drop.
  destruct (decide (n ≤ length b)) as [H|H].
  - rewrite !(drop_ge a) by lia. f_equal; f_equal; lia.
  - f_equal; f_equal; lia.
Qed.

(** Appending to a deque keeps the last [maxlen] items. *)
Lemma deque_append_last_items (x : A) a n :
  0 < n → length a ≤ n →
  deque_append n x a = last_items (Z.of_nat n) (a ++ [x]).
Proof.
  intros Hn Hle. unfold deque_append, last_items.
  rewrite Nat2Z.id, length_app. simpl.
  destruct (Nat.eqb_spec n 0) as [|_]; [lia |].
  destruct (Nat.ltb_spec (length a) n) as [H|H].
  - replace (length a + 1 - n) with 0 by lia. done.
  - replace (length a + 1 - n) with 1 by lia.
    rewrite drop_app. replace (1 - length a) with 0 by lia. done.
Qed.

Lemma last_items_length k l :
  length (last_items k l) = Nat.min (Z.to_nat k) (length l).
Proof. unfold last_items. rewrite length_drop. lia. Qed.


End Lists.

Lemma ascending_drop n l : ascending l → ascending (drop n l).
Proof.
  unfold ascending. intros H. rewrite <- (take_drop n l) in H.
  by apply StronglySorted_app in H as (_ & _ & H).
Qed.


Lemma entries_from_above calls : ∀ seq,
  Forall (λ e, (seq < LogEntry.id e)%Z) (entries_from seq calls).
Proof.
  induction calls as [|c rest IH]; intros seq; simpl; constructor.
  - simpl. lia.
  - eapply Forall_impl; [apply IH |]. simpl. intros; lia.
Qed.

Lemma entries_from_ascending calls : ∀ seq, ascending (entries_from seq calls).
Proof.
  induction calls as [|c rest IH]; intros seq; simpl; constructor.
  - apply IH.
  - eapply Forall_impl; [apply entries_from_above |]. simpl. intros; lia.
Qed.

Lemma entries_from_length calls : ∀ seq,
  length (entries_from seq calls) = length calls.
Proof. induction calls; intros; simpl; auto. Qed.




Lemma clamp_last_range last : (1 ≤ clamp_last last ≤ 500)%Z.
Proof. unfold clamp_last. lia. Qed.

Lemma inflight_apply_nonneg op s :
  (0 ≤ inflight s)%Z → (0 ≤ inflight (inflight_apply s op))%Z.
Proof.
  intros H. destruct op; simpl.
  - unfold _inflight_inc. simpl. lia.
  - unfold _inflight_dec. destruct (Z.ltb_spec 0 (inflight s)); simpl; lia.
Qed.

Lemma inflight_ops_nonneg ops : ∀ s,
  (0 ≤ inflight s)%Z → (0 ≤ inflight (foldl inflight_apply s ops))%Z.
Proof.
  induction ops as [|op rest IH]; intros s H; simpl; [done |].
  by apply IH, inflight_apply_nonneg.
Qed.

(** C7. Starting from a count of zero, after every sequence of
    [_inflight_inc] and [_inflight_dec] the count is non-negative, and
    whenever it is zero [_inflight_dec] changes nothing. *)
Theorem inflight_never_negative (ops : list inflight_op) (s : Shared) :
  inflight s = 0%Z →
  let s' := foldl inflight_apply s ops in
  (0 ≤ _inflight_peek s')%Z ∧
  (_inflight_peek s' = 0%Z → _inflight_dec s' = s').
Proof.
  intros H0 s'. split.
  - apply inflight_ops_nonneg. lia.
  - unfold _inflight_peek, _inflight_dec. by intros ->.
Qed.

Lemma inflight_never_negative_witness :
  let s' := foldl inflight_apply Examples.shared0 [Dec; Inc; Dec; Dec] in
  (0 ≤ _inflight_peek s')%Z ∧
  (_inflight_peek s' = 0%Z → _inflight_dec s' = s').
Proof.
  apply (inflight_never_negative [Dec; Inc; Dec; Dec] Examples.shared0).
  reflexivity.
Defined.

(** [Examples.shared0] is what [make_server] binds for a locked counter,
    a threaded server, delay 1, [rps = 5] and [burst = 10]. *)
Example shared0_made :
  make_shared false true false 1 5 10 = Ok Examples.shared0.
Proof. reflexivity. Qed.

Example inflight_dec_at_zero :
  _inflight_peek (foldl inflight_apply Examples.shared0 [Dec; Inc; Dec; Dec])
  = 0%Z.
Proof. reflexivity. Qed.

Section Requests.
Variable urlsplit_path : string → result string.
Variable parse_qs_query : string → gmap string (list string).
Variable int_of_str : string → option Z.

Local Abbreviation do_GET :=
  (do_GET urlsplit_path parse_qs_query int_of_str).
Local Abbreviation try_block := (try_block urlsplit_path).

(** The [try] block touches the counter only. *)
Lemma try_block_frame e r s :
  inflight (try_block e r s).1.1 = inflight s ∧
  logs (try_block e r s).1.1 = logs s ∧
  log_seq (try_block e r s).1.1 = log_seq s.
Proof.
  unfold RequestHandler.try_block. repeat case_match; simpl; done.
Qed.

(** A request that is neither [/__counts] nor under [/api/] and that the
    limiter refuses is answered with status 429 when the answer can be
    written to the peer; one entry is then appended to the log, with
    status 429 and duration zero; the counter and the inflight count are
    what they were. *)
Lemma rejected_request_logged (e : Env) (r : Request) (s : Shared)
    (rl : Limiter.RateLimiter) :
  String.eqb (path r) "/__counts" = false →
  String.prefix "/api/" (path r) = false →
  limiter s = Some rl →
  (Limiter.allow (mono_allow e) (client_key s r) rl).1 = false →
  reject_failure e = None →
  ∃ entry,
    (do_GET e r s).2 = Ok (SendError 429 "Rate limit exceeded") ∧
    logs (do_GET e r s).1 = deque_append logs_maxlen entry (logs s) ∧
    LogEntry.id entry = (log_seq s + 1)%Z ∧
    LogEntry.status entry = 429%Z ∧
    (LogEntry.dur_ms entry == 0)%Q ∧
    LogEntry.path entry = path r ∧
    LogEntry.ip entry = client_key s r ∧
    counter (do_GET e r s).1 = counter s ∧
    inflight (do_GET e r s).1 = inflight s.
Proof.
  intros H1 H2 Hl Hdeny Hw. unfold RequestHandler.do_GET.
  rewrite H1, H2, Hl.
  destruct (Limiter.allow (mono_allow e) (client_key s r) rl) as [ok rl'].
  simpl in Hdeny. subst ok. simpl. rewrite Hw.
  eexists. repeat split; reflexivity.
Qed.

(** C8. A request that is neither [/__counts] nor under [/api/], that the
    limiter refuses and whose peer has gone, so that [send_error] raises
    while it writes the 429 answer: the exception leaves [do_GET] and no
    log entry is appended. The counter and the inflight count are what
    they were. *)
Theorem rejected_request_unlogged (e : Env) (r : Request) (s : Shared)
    (rl : Limiter.RateLimiter) (x : exn) :
  String.eqb (path r) "/__counts" = false →
  String.prefix "/api/" (path r) = false →
  limiter s = Some rl →
  (Limiter.allow (mono_allow e) (client_key s r) rl).1 = false →
  reject_failure e = Some x →
  (do_GET e r s).2 = Raise x ∧
  logs (do_GET e r s).1 = logs s ∧
  log_seq (do_GET e r s).1 = log_seq s ∧
  counter (do_GET e r s).1 = counter s ∧
  inflight (do_GET e r s).1 = inflight s.
Proof.
  intros H1 H2 Hl Hdeny Hw. unfold RequestHandler.do_GET.
  rewrite H1, H2, Hl.
  destruct (Limiter.allow (mono_allow e) (client_key s r) rl) as [ok rl'].
  simpl in Hdeny. subst ok. simpl. rewrite Hw. done.
Qed.

(** An admitted request whose [try] block raises is logged by the
    [except] clause and again by the [finally] clause: two entries, the
    first with 499 and the second with 200 when no status was sent. *)
Lemma raised_request_logged_twice e r s x :
  String.eqb (path r) "/__counts" = false →
  String.prefix "/api/" (path r) = false →
  ServerX.lets_in e r s = true →
  (do_GET e r s).2 = Raise x →
  ∃ first second,
    logs (do_GET e r s).1
    = deque_append logs_maxlen second
        (deque_append logs_maxlen first (logs s)) ∧
    LogEntry.id first = (log_seq s + 1)%Z ∧
    LogEntry.id second = (log_seq s + 2)%Z ∧
    log_seq (do_GET e r s).1 = (log_seq s + 2)%Z ∧
    ((LogEntry.status first = 499%Z ∧ LogEntry.status second = 200%Z) ∨
     LogEntry.status first = LogEntry.status second) ∧
    ((0 ≤ inflight s)%Z → inflight (do_GET e r s).1 = inflight s).
Proof.
  intros H1 H2 Hin. unfold RequestHandler.do_GET. rewrite H1, H2.
  set (v := match limiter s with Some _ => _ | None => _ end).
  assert (Hv : v.1 = true ∧ inflight v.2 = inflight s ∧
               logs v.2 = logs s ∧ log_seq v.2 = log_seq s).
  { subst v. unfold ServerX.lets_in in Hin.
    destruct (limiter s); [| done]. by destruct (Limiter.allow _ _ _). }
  destruct v as [ok s1]. simpl in Hv. destruct Hv as (-> & Hi & Hlg & Hsq).
  simpl.
  pose proof (try_block_frame e r (_inflight_inc s1)) as (Ti & Tl & Ts).
  destruct (try_block e r (_inflight_inc s1)) as [[s2 st] out].
  simpl in Ti, Tl, Ts. destruct out as [resp|x']; simpl; [discriminate |].
  intros _. unfold finally_clause, _log, _inflight_dec, _inflight_peek.
  simpl. rewrite Ti, Tl, Ts. unfold _inflight_inc. simpl.
  rewrite Hi, Hlg, Hsq.
  eexists _, _. split; [| split; [| split; [| split; [| split]]]].
  - destruct (0 <? inflight s + 1)%Z; simpl; reflexivity.
  - reflexivity.
  - simpl. lia.
  - destruct (0 <? inflight s + 1)%Z; simpl; lia.
  - simpl. destruct st; simpl; [by right | by left].
  - intros Hn. destruct (Z.ltb_spec 0 (inflight s + 1)); simpl; lia.
Qed.

End Requests.

Section LogsApi.
Variable urlsplit_path : string → result string.
Variable parse_qs_query : string → gmap string (list string).
Variable int_of_str : string → option Z.

(** [parse_qs] never maps a name to an empty list. *)
Hypothesis parse_qs_values : ∀ p name, parse_qs_query p !! name ≠ Some [].
(** [int] reads the two literals the handler uses as defaults. *)
Hypothesis int_0 : int_of_str "0" = Some 0%Z.
Hypothesis int_100 : int_of_str "100" = Some 100%Z.

Local Abbreviation do_GET :=
  (do_GET urlsplit_path parse_qs_query int_of_str).
Local Abbreviation int_param := (int_param int_of_str).




(** Every query asks for one number under each name. *)
Lemma requested_total p name fallback :
  ∃ n, requested int_of_str (parse_qs_query p) name fallback n.
Proof.
  destruct (parse_qs_query p !! name) as [[|v vs]|] eqn:E.
  - by apply parse_qs_values in E.
  - destruct (int_of_str v) as [n|] eqn:Hv.
    + exists n. left. by exists v, vs.
    + exists fallback. right. split; [| done]. right. by exists v, vs.
  - exists fallback. right. split; [| done]. by left.
Qed.

Lemma requested_unique p name fallback n m :
  requested int_of_str (parse_qs_query p) name fallback n →
  requested int_of_str (parse_qs_query p) name fallback m → n = m.
Proof.
  intros [(v & vs & E & Hv)|[[E|(v & vs & E & Hv)] ->]]
         [(v' & vs' & E' & Hv')|[[E'|(v' & vs' & E' & Hv')] ->]];
    congruence.
Qed.




End LogsApi.

(** A refused request whose peer has gone, on a limiter whose only bucket
    is empty. *)
Lemma rejected_request_unlogged_witness :
  let out :=
    Examples.py_do_GET Examples.vanished_env Examples.index_request
      Examples.drained in
  out.2 = Raise (OSError "Broken pipe") ∧
  logs out.1 = logs Examples.drained ∧
  log_seq out.1 = log_seq Examples.drained ∧
  counter out.1 = counter Examples.drained ∧
  inflight out.1 = inflight Examples.drained.
Proof.
  apply (rejected_request_unlogged PyLib.urlsplit_path PyLib.parse_qs_query
           PyLib.int_of_str Examples.vanished_env Examples.index_request
           Examples.drained Examples.drained_limiter
           (OSError "Broken pipe"));
    vm_compute; reflexivity.
Defined.

(** The same request with the peer still there: one entry, status 429. *)
Example rejected_request_answered :
  let out :=
    Examples.py_do_GET Examples.env0 Examples.index_request
      Examples.drained in
  out.2 = Ok (SendError 429 "Rate limit exceeded") ∧
  map LogEntry.id (logs out.1) = [1%Z] ∧
  map LogEntry.status (logs out.1) = [429%Z] ∧
  counter out.1 = counter Examples.drained ∧
  inflight out.1 = inflight Examples.drained.
Proof. vm_compute. repeat split; reflexivity. Qed.

(** The refused request leaves the count of ["/index.html"] at 1. *)
Example rejected_request_counter :
  counter_snapshot
    <$> counter (Examples.py_do_GET Examples.env0 Examples.index_request
                   Examples.drained).1
  = Some {[ "/index.html" := 1%Z ]}.
Proof. vm_compute. reflexivity. Qed.


(** In the example [since] is not an integer and [last] is absent. *)
Example logs_request_unusable :
  unusable PyLib.int_of_str
    (PyLib.parse_qs_query (path Examples.logs_request)) "since" ∧
  unusable PyLib.int_of_str
    (PyLib.parse_qs_query (path Examples.logs_request)) "last".
Proof.
  split.
  - right. exists "abc", []. split; vm_compute; reflexivity.
  - left. vm_compute. reflexivity.
Qed.


(** Two of three entries are newer than id 1. *)
Example logs_since_one :
  map LogEntry.id
    (select_logs 1 (clamp_last 100)
       (logs (foldl log_call Examples.shared0 Examples.three_calls)))
  = [2; 3]%Z.
Proof. vm_compute. reflexivity. Qed.

(** C1. The request [GET /a%00b] is let in by the limiter and its
    handling raises [ValueError] before any status is sent. [do_GET] lets
    the exception out, brings the inflight count back to what it was, and
    appends two log entries for the request, not one: the [except] clause
    logs status 499 and the [finally] clause logs status 200. *)
Theorem raised_request_two_entries :
  let out :=
    Examples.py_do_GET Examples.failing_env Examples.failing_request
      Examples.shared0 in
  out.2 = Raise (ValueError "embedded null byte") ∧
  inflight out.1 = inflight Examples.shared0 ∧
  map LogEntry.id (logs out.1) = [1; 2]%Z ∧
  map LogEntry.path (logs out.1) = ["/a%00b"; "/a%00b"] ∧
  map LogEntry.status (logs out.1) = [499; 200]%Z.
Proof. vm_compute. repeat split; reflexivity. Qed.

(** The peer goes away while the body is written, after status 200 was
    sent: again two entries, both with status 200. *)
Example disconnect_two_entries :
  map LogEntry.status
    (logs (Examples.py_do_GET
             {| mono_allow := 0; mono_start := 0; mono_except := 1;
                mono_finally := 1; wall_first := 0; wall_second := 0;
                thread_name := "Thread-1"; listdir := None;
                write_failure := None; reject_failure := None;
                static_status := Some 200%Z;
                static_failure := Some (OSError "Broken pipe");
                fire_ok := 0 |}
             Examples.index_request Examples.shared0).1)
  = [200; 200]%Z.
Proof. vm_compute. reflexivity. Qed.

End ServerFacts.

(** * Further properties *)

(** ** The rate limiter: isolation of keys *)

Module LimiterMore.
Import Limiter LimiterFacts.

(** A call sees the limiter through the parameters and the key's bucket. *)
Lemma allow_local now ip rl rl' :
  _rps rl' = _rps rl → _burst rl' = _burst rl →
  _buckets rl' !! ip = _buckets rl !! ip →
  (allow now ip rl').1 = (allow now ip rl).1 ∧
  _buckets (allow now ip rl').2 !! ip = _buckets (allow now ip rl).2 !! ip.
Proof.
  intros Hr Hb Hl.
  destruct (allow_unfold now ip rl) as [E1 E2].
  destruct (allow_unfold now ip rl') as [E1' E2'].
  rewrite E1, E2, E1', E2'. unfold start_bucket. rewrite Hl, Hr, Hb. done.
Qed.

Lemma allow_all_other calls ip : ∀ rl,
  Forall (λ c, c.2 ≠ ip) calls →
  _buckets (allow_all calls rl).2 !! ip = _buckets rl !! ip.
Proof.
  induction calls as [|[t k] rest IH]; intros rl Hf; simpl; [done |].
  apply Forall_cons in Hf as [Hk Hf]. simpl in Hk.
  pose proof (allow_other t k rl ip (not_eq_sym Hk)) as Ho.
  destruct (allow t k rl) as [ok rl1]; simpl in *.
  specialize (IH rl1 Hf).
  destruct (allow_all rest rl1) as [oks rl2]; simpl in *. congruence.
Qed.

(** Calls of [allow] for other keys change neither the verdict of a call
    for a key nor the bucket it leaves there. *)
Theorem allow_key_isolation (calls : list (Q * string)) (now : Q)
    (ip : string) (rl : RateLimiter) :
  Forall (λ c, c.2 ≠ ip) calls →
  (allow now ip (allow_all calls rl).2).1 = (allow now ip rl).1 ∧
  _buckets (allow now ip (allow_all calls rl).2).2 !! ip
  = _buckets (allow now ip rl).2 !! ip.
Proof.
  intros Hf. destruct (allow_all_params calls rl) as [Hr Hb].
  apply allow_local; [done | done |]. by apply allow_all_other.
Qed.

Lemma allow_key_isolation_witness :
  (allow 2 Examples.ip
     (allow_all MoreExamples.other_calls Examples.limiter55).2).1
  = (allow 2 Examples.ip Examples.limiter55).1 ∧
  _buckets (allow 2 Examples.ip
              (allow_all MoreExamples.other_calls Examples.limiter55).2).2
    !! Examples.ip
  = _buckets (allow 2 Examples.ip Examples.limiter55).2 !! Examples.ip.
Proof.
  apply (allow_key_isolation MoreExamples.other_calls 2 Examples.ip
           Examples.limiter55).
  repeat (constructor; [discriminate |]). constructor.
Defined.

End LimiterMore.

(** ** Counting one call after the other *)

Module CounterMore.
Import CounterX.

Lemma counter_inc_lookup k c k' :
  counter_snapshot (counter_inc k c) !! k'
  = if decide (k = k') then Some (default 0 (counter_snapshot c !! k) + 1)%Z
    else counter_snapshot c !! k'.
Proof.
  destruct c as [m|m]; simpl;
    unfold NaiveCounter.snapshot, NaiveCounter.inc, NaiveCounter.inc_write,
      NaiveCounter.inc_read, LockedCounter.snapshot, LockedCounter.inc;
    by rewrite lookup_insert.
Qed.

Lemma inc_all_lookup keys k : ∀ c,
  counter_snapshot (inc_all keys c) !! k
  = bumped (counter_snapshot c !! k) (count (String.eqb k) keys).
Proof.
  induction keys as [|k' rest IH]; intros c; [done |].
  unfold inc_all in *. simpl foldl. rewrite IH, count_cons.
  rewrite counter_inc_lookup.
  destruct (String.eqb_spec k k') as [<-|Hne].
  - rewrite decide_True by done. simpl.
    destruct (count (String.eqb k) rest); simpl; f_equal; lia.
  - by rewrite decide_False by done.
Qed.

(** Calls of [inc] one after the other, on either counter: the snapshot
    maps a key to what it held plus the number of calls for that key, and
    after [reset] to exactly that number (the key is absent when there was
    none). *)
Theorem counter_counts_keys (c : Counter) (keys : list string) (k : string) :
  counter_snapshot (inc_all keys c) !! k
  = bumped (counter_snapshot c !! k) (count (String.eqb k) keys) ∧
  counter_snapshot (inc_all keys (counter_reset c)) !! k
  = LockedCounter.stored_value (count (String.eqb k) keys).
Proof.
  split; [apply inc_all_lookup |].
  rewrite inc_all_lookup.
  assert (counter_snapshot (counter_reset c) !! k = None) as ->.
  { destruct c; simpl;
      unfold NaiveCounter.snapshot, NaiveCounter.reset,
        LockedCounter.snapshot, LockedCounter.reset; apply lookup_empty. }
  by destruct (count _ keys).
Qed.
End CounterMore.

(** ** The lock: exclusion and consistent snapshots *)

Module LockedMore.
Import LockedCounter LockedFacts.

(** In every interleaving of [LockedCounter.inc] calls at most one worker
    is between acquiring and releasing the lock, and none when the lock is
    free. *)
Theorem locked_mutual_exclusion (n : nat) (key : string) (schedule : list nat) :
  count inside (workers (run schedule (spawn n key))) ≤ 1 ∧
  (_lock (run schedule (spawn n key)) = false →
   count inside (workers (run schedule (spawn n key))) = 0).
Proof.
  pose proof (locked_run_inv key schedule _ (locked_spawn_inv n key))
    as (_ & Hin & _).
  rewrite Hin. destruct (_lock _); split; (lia || done).
Qed.

Lemma outside_wrote_finished (l : list (string * pc)) :
  count inside l = 0 → count wrote l = count is_finished l.
Proof.
  induction l as [|[k p] l IH]; [done |].
  rewrite !count_cons. destruct p; cbn; intros H; try lia; rewrite IH; lia.
Qed.

(** Whenever [snapshot()] gets the lock, in any interleaving, it maps the
    key to exactly the number of [inc] calls that have finished. *)
Theorem locked_snapshot_consistent (n : nat) (key : string)
    (schedule : list nat) (snap : gmap string Z) :
  snapshot_in (run schedule (spawn n key)) = Some snap →
  snap !! key
  = stored_value (count is_finished (workers (run schedule (spawn n key)))).
Proof.
  pose proof (locked_run_inv key schedule _ (locked_spawn_inv n key))
    as (_ & Hin & Hc & _).
  unfold snapshot_in, snapshot. destruct (_lock _); [discriminate |].
  intros [= <-]. rewrite Hc. f_equal. by apply outside_wrote_finished.
Qed.
Lemma locked_mutual_exclusion_witness :
  count inside (workers (run Examples.locked_schedule (spawn 3 "/foo"))) ≤ 1 ∧
  count inside (workers (run Examples.locked_schedule (spawn 3 "/foo"))) = 0.
Proof.
  split.
  - apply (locked_mutual_exclusion 3 "/foo" Examples.locked_schedule).
  - apply (proj2 (locked_mutual_exclusion 3 "/foo" Examples.locked_schedule)).
    vm_compute. reflexivity.
Defined.

Lemma locked_snapshot_consistent_witness :
  ({[ "/foo" := 1%Z ]} : gmap string Z) !! "/foo"
  = stored_value
      (count is_finished
         (workers (run MoreExamples.partial_schedule (spawn 3 "/foo")))).
Proof.
  apply (locked_snapshot_consistent 3 "/foo" MoreExamples.partial_schedule).
  vm_compute. reflexivity.
Defined.

End LockedMore.

(** ** The counter without a lock: what can and cannot be lost *)

Module NaiveMore.
Import NaiveCounter NaiveFacts CounterX.

Lemma naive_low_step key i w : naive_low key w → naive_low key (step i w).
Proof.
  intros (Hw & Hv & Hn). unfold step.
  destruct (workers w !! i) as [[k p]|] eqn:Ei; [| done].
  pose proof (Forall_lookup_1 _ _ _ _ Hw Ei) as [Hk Hc]. simpl in Hk, Hc.
  subst k. destruct p as [|c|]; [| | done].
  - pose proof (count_insert is_finished _ _ _
                  (key, Sleeping (inc_read key (_counts w))) Ei) as Hcnt.
    cbn in Hcnt. rewrite !Nat.add_0_r in Hcnt.
    split; [| split]; simpl.
    + apply Forall_insert; [done |]. split; [done |]. simpl.
      intros c [= <-]. unfold inc_read.
      destruct (_counts w !! key) as [v|] eqn:Ev; simpl; [| lia].
      specialize (Hv v eq_refl). lia.
    + done.
    + intros H. rewrite Hcnt. by apply Hn.
  - specialize (Hc c eq_refl).
    split; [| split]; simpl.
    + apply Forall_insert; [done |]. split; [done | discriminate].
    + unfold inc_write. rewrite lookup_insert_eq. intros v [= <-]. lia.
    + unfold inc_write. by rewrite lookup_insert_eq.
Qed.

Lemma naive_low_run key schedule : ∀ w,
  naive_low key w → naive_low key (run schedule w).
Proof.
  induction schedule as [|i rest IH]; intros w Hw; simpl; [done |].
  apply IH. by apply naive_low_step.
Qed.

Lemma naive_low_spawn n key : naive_low key (spawn n key).
Proof.
  unfold naive_low, spawn. simpl. split; [| split].
  - apply Forall_replicate. split; [done | discriminate].
  - unfold __init__. intros v. by rewrite lookup_empty.
  - intros _. by apply count_replicate_false.
Qed.

Lemma all_finished_count w :
  all_finished w = true → count is_finished (workers w) = length (workers w).
Proof.
  unfold all_finished. induction (workers w) as [|p l IH]; [done |].
  simpl. intros [Hp Hl]%andb_true_iff. rewrite count_cons, Hp, IH; done.
Qed.

(** When [n >= 1] unsynchronized [inc] calls on one key have all finished,
    in any interleaving, the key is present and holds between 1 and
    [n]. *)
Theorem naive_finished_range (n : nat) (key : string) (schedule : list nat) :
  1 ≤ n →
  all_finished (run schedule (spawn n key)) = true →
  ∃ v, snapshot (_counts (run schedule (spawn n key))) !! key = Some v ∧
       (1 ≤ v ≤ Z.of_nat n)%Z.
Proof.
  intros Hn Hf.
  pose proof (naive_low_run key schedule _ (naive_low_spawn n key))
    as (_ & Hv & Hnone).
  pose proof (naive_run_inv key schedule _ (naive_spawn_inv n key))
    as (_ & Hup & _).
  pose proof (all_finished_count _ Hf) as Hc.
  rewrite naive_run_length in Hc.
  change (workers (spawn n key)) with (replicate n (key, Ready)) in Hc.
  rewrite length_replicate in Hc. rewrite Hc in Hup, Hnone.
  unfold snapshot.
  destruct (_counts (run schedule (spawn n key)) !! key) as [v|] eqn:Ev.
  - exists v. split; [done |]. specialize (Hv v eq_refl). simpl in Hup. lia.
  - specialize (Hnone eq_refl). lia.
Qed.

Lemma run_naive_serial key b : ∀ c l1,
  run (flat_map (λ i, [i; i]) (seq (length l1) b))
      {| _counts := c; workers := l1 ++ replicate b (key, Ready) |}
  = {| _counts := Nat.iter b (inc key) c;
       workers := l1 ++ replicate b (key, Finished) |}.
Proof.
  induction b as [|b IH]; intros c l1; [done |].
  change (replicate (S b) ?x) with (x :: replicate b x).
  change (seq (length l1) (S b)) with (length l1 :: seq (S (length l1)) b).
  change (flat_map ?f (?x :: ?l)) with (f x ++ flat_map f l).
  unfold run. rewrite foldl_app. simpl foldl at 2.
  rewrite step_ready, step_sleeping.
  specialize (IH (inc key c) (l1 ++ [(key, Finished)])).
  rewrite length_app, Nat.add_1_r, <- !app_assoc in IH.
  unfold run in IH. refine (eq_trans IH _). f_equal.
  symmetry. apply Nat.iter_succ_r.
Qed.

Lemma naive_inc_iter n key : Nat.iter n (inc key) __init__ !! key
  = LockedCounter.stored_value n.
Proof.
  induction n as [|n IH]; [done |]. simpl. unfold inc at 1, inc_write, inc_read.
  rewrite lookup_insert_eq, IH, LockedFacts.stored_value_default. f_equal. lia.
Qed.

(** Without interleaving the unsynchronized counter loses nothing: when
    each worker reads and writes before the next starts, [n] calls leave
    [n] under the key. *)
Theorem naive_serial_exact (n : nat) (key : string) :
  all_finished (run (naive_serial n) (spawn n key)) = true ∧
  snapshot (_counts (run (naive_serial n) (spawn n key))) !! key
  = LockedCounter.stored_value n.
Proof.
  pose proof (run_naive_serial key n __init__ []) as H. simpl in H.
  unfold naive_serial, spawn. rewrite H. simpl. split.
  - unfold all_finished. simpl. clear. induction n as [|n IH]; [done |]. exact IH.
  - apply naive_inc_iter.
Qed.
Lemma naive_finished_range_witness :
  ∃ v, snapshot (_counts (run [0; 1; 2; 0; 1; 2] (spawn 3 "/foo"))) !! "/foo"
       = Some v ∧
       (1 ≤ v ≤ Z.of_nat 3)%Z.
Proof.
  apply (naive_finished_range 3 "/foo" [0; 1; 2; 0; 1; 2]);
    [lia | vm_compute; reflexivity].
Defined.

End NaiveMore.

(** ** The lock is always released *)

Module LockedLive.
Import LockedCounter LockedFacts LockedX.

Lemma step_at k p c L l1 l2 :
  step (length l1) {| _counts := c; _lock := L; workers := l1 ++ (k, p) :: l2 |}
  = match p with
    | Ready =>
        if L then {| _counts := c; _lock := L;
                     workers := l1 ++ (k, Ready) :: l2 |}
        else {| _counts := c; _lock := true;
                workers := l1 ++ (k, Entered) :: l2 |}
    | Entered =>
        {| _counts := c; _lock := L;
           workers := l1 ++ (k, Fetched (default 0%Z (c !! k))) :: l2 |}
    | Fetched v =>
        {| _counts := <[k := (v + 1)%Z]> c; _lock := L;
           workers := l1 ++ (k, Stored) :: l2 |}
    | Stored =>
        {| _counts := c; _lock := false;
           workers := l1 ++ (k, Finished) :: l2 |}
    | Finished =>
        {| _counts := c; _lock := L; workers := l1 ++ (k, Finished) :: l2 |}
    end.
Proof.
  assert (Hins : ∀ y, <[length l1 := y]> (l1 ++ (k, p) :: l2) = l1 ++ y :: l2).
  { intros. rewrite insert_app_r_alt by lia. by rewrite Nat.sub_diag. }
  unfold step. simpl. rewrite list_lookup_middle by done.
  destruct p; simpl; rewrite ?Hins; done.
Qed.

Lemma four_steps k p c L l1 l2 :
  ∃ c',
    run [length l1; length l1; length l1; length l1]
      {| _counts := c; _lock := L; workers := l1 ++ (k, p) :: l2 |}
    = {| _counts := c'; _lock := (quad L p).1;
         workers := l1 ++ (k, (quad L p).2) :: l2 |}.
Proof.
  unfold run. simpl foldl.
  destruct p as [| |v| |]; [destruct L | | | |];
    repeat (rewrite step_at; simpl); eexists; reflexivity.
Qed.

Lemma run_sweep l2 : ∀ l1 c L,
  ∃ c',
    run (flat_map (λ i, [i; i; i; i]) (seq (length l1) (length l2)))
      {| _counts := c; _lock := L; workers := l1 ++ l2 |}
    = {| _counts := c'; _lock := (sweep L l2).1;
         workers := l1 ++ (sweep L l2).2 |}.
Proof.
  induction l2 as [|[k p] l2 IH]; intros l1 c L.
  - exists c. done.
  - change (length ((k, p) :: l2)) with (S (length l2)).
    change (seq (length l1) (S (length l2)))
      with (length l1 :: seq (S (length l1)) (length l2)).
    change (flat_map ?f (?x :: ?l)) with (f x ++ flat_map f l).
    unfold run. rewrite foldl_app.
    destruct (four_steps k p c L l1 l2) as [c1 E1].
    unfold run in E1. cbv beta. rewrite E1.
    destruct (IH (l1 ++ [(k, (quad L p).2)]) c1 (quad L p).1) as [c2 E2].
    rewrite length_app, Nat.add_1_r, <- !app_assoc in E2.
    unfold run in E2. exists c2. simpl app in E2. rewrite E2.
    simpl. destruct (quad L p) as [L1 p1]. simpl.
    by destruct (sweep L1 l2).
Qed.

Lemma sweep_free l : (sweep false l).1 = false.
Proof.
  induction l as [|[k p] l IH]; [done |]. simpl.
  assert (H : (quad false p).1 = false) by (by destruct p).
  destruct (quad false p) as [L1 p1]. simpl in H. subst L1.
  by destruct (sweep false l).
Qed.

Lemma sweep_releases (L : bool) (l : list (string * pc)) :
  count inside l = (if L then 1 else 0) → (sweep L l).1 = false.
Proof.
  revert L. induction l as [|[k p] l IH]; intros L H.
  - destruct L; [discriminate | done].
  - rewrite count_cons in H. simpl.
    destruct p; cbn in H; cbn [quad].
    + destruct L.
      * specialize (IH true H). by destruct (sweep true l).
      * pose proof (sweep_free l). by destruct (sweep false l).
    + pose proof (sweep_free l). by destruct (sweep false l).
    + pose proof (sweep_free l). by destruct (sweep false l).
    + pose proof (sweep_free l). by destruct (sweep false l).
    + specialize (IH L H). by destruct (sweep L l).
Qed.

Lemma sweep_outside L l : count inside (sweep L l).2 = 0.
Proof.
  revert L. induction l as [|[k p] l IH]; intros L; [done |]. simpl.
  assert (H : inside (k, (quad L p).2) = false)
    by (destruct p, L; done).
  destruct (quad L p) as [L1 p1]. specialize (IH L1).
  destruct (sweep L1 l) as [L2 l']. simpl in *.
  by rewrite count_cons, H, IH.
Qed.

Lemma sweep_length L l : length (sweep L l).2 = length l.
Proof.
  revert L. induction l as [|[k p] l IH]; intros L; [done |]. simpl.
  destruct (quad L p) as [L1 p1]. specialize (IH L1).
  destruct (sweep L1 l). simpl in *. by rewrite IH.
Qed.

Lemma sweep_finishes l :
  count inside l = 0 → forallb is_finished (sweep false l).2 = true.
Proof.
  induction l as [|[k p] l IH]; [done |]. rewrite count_cons. simpl.
  destruct p; cbn; intros H; try lia;
    specialize (IH ltac:(lia)); by destruct (sweep false l).
Qed.

(** The lock is never left held for good: from the state any interleaving
    of [n] [LockedCounter.inc] calls has reached, letting each worker run
    four steps, twice over, finishes every call. *)
Theorem locked_always_finishes (n : nat) (key : string) (schedule : list nat) :
  all_finished
    (run (schedule ++ serial_schedule n ++ serial_schedule n) (spawn n key))
  = true.
Proof.
  unfold run. rewrite !foldl_app.
  fold (run schedule (spawn n key)).
  pose proof (locked_run_inv key schedule _ (locked_spawn_inv n key))
    as (_ & Hin & _).
  pose proof (locked_run_length schedule (spawn n key)) as Hlen.
  change (workers (spawn n key)) with (replicate n (key, Ready)) in Hlen.
  rewrite length_replicate in Hlen.
  destruct (run schedule (spawn n key)) as [c L l]. simpl in Hin, Hlen.
  unfold serial_schedule. subst n.
  destruct (run_sweep l [] c L) as [c1 E1]. simpl in E1.
  unfold run in E1. rewrite E1.
  rewrite (sweep_releases L l Hin).
  pose proof (run_sweep (sweep L l).2 [] c1 false) as [c2 E2].
  rewrite sweep_length in E2. simpl in E2. unfold run in E2. rewrite E2.
  unfold all_finished. simpl. apply sweep_finishes, sweep_outside.
Qed.

End LockedLive.

(** ** What a request does to the shared state *)

Module ServerMore.
Import RequestHandler ServerX ServerFacts.

Section Handling.
Variable urlsplit_path : string → result string.
Variable parse_qs_query : string → gmap string (list string).
Variable int_of_str : string → option Z.

Local Abbreviation do_GET :=
  (do_GET urlsplit_path parse_qs_query int_of_str).
Local Abbreviation _handle_api :=
  (_handle_api urlsplit_path parse_qs_query int_of_str).
Local Abbreviation try_block := (try_block urlsplit_path).
Local Abbreviation serve := (serve urlsplit_path parse_qs_query int_of_str).

(** What [_handle_api] leaves alone. *)
Lemma handle_api_frame e r s :
  limiter (_handle_api e r s).1 = limiter s ∧
  inflight (_handle_api e r s).1 = inflight s ∧
  logs (_handle_api e r s).1 = logs s ∧
  log_seq (_handle_api e r s).1 = log_seq s ∧
  trust_xff (_handle_api e r s).1 = trust_xff s ∧
  (counter (_handle_api e r s).1 = counter s ∨
   String.prefix "/api/reset" (path r) = true ∧
   counter (_handle_api e r s).1 = counter_reset <$> counter s).
Proof.
  unfold RequestHandler._handle_api.
  repeat case_match; simpl; repeat split; auto.
Qed.

(** [do_GET] on a path that is not administrative. *)
Lemma do_GET_plain e r s :
  is_admin (path r) = false →
  do_GET e r s
  = let ip := client_key s r in
    let s1 := match limiter s with
              | Some rl =>
                  set_limiter
                    (Some (Limiter.allow (mono_allow e) ip rl).2) s
              | None => s
              end in
    if negb (lets_in e r s) then
      match reject_failure e with
      | Some x => (s1, Raise x)
      | None =>
          (_log ip "GET" (path r) 429 0 (_inflight_peek s1) (wall_first e)
                (thread_name e) s1,
           Ok (SendError 429 "Rate limit exceeded"))
      end
    else
      let t := try_block e r (_inflight_inc s1) in
      match t.2 with
      | Raise x =>
          (finally_clause e r ip (wall_second e) t.1.2
             (_log ip "GET" (path r) (default 499%Z t.1.2)
                   ((mono_except e - mono_start e) * 1000)
                   (_inflight_peek t.1.1) (wall_first e) (thread_name e)
                   t.1.1),
           Raise x)
      | Ok resp =>
          (finally_clause e r ip (wall_first e) t.1.2 t.1.1, Ok resp)
      end.
Proof.
  unfold is_admin. intros [H1 H2]%orb_false_iff.
  unfold RequestHandler.do_GET, lets_in. rewrite H1, H2.
  destruct (limiter s) as [rl|]; simpl.
  - destruct (Limiter.allow (mono_allow e) (client_key s r) rl) as [ok rl'].
    simpl. destruct ok; simpl; [| done].
    by destruct (try_block e r _) as [[s2 st] [resp|x]].
  - by destruct (try_block e r _) as [[s2 st] [resp|x]].
Qed.

Lemma try_block_frame' e r s :
  limiter (try_block e r s).1.1 = limiter s ∧
  trust_xff (try_block e r s).1.1 = trust_xff s ∧
  inflight (try_block e r s).1.1 = inflight s ∧
  logs (try_block e r s).1.1 = logs s ∧
  log_seq (try_block e r s).1.1 = log_seq s.
Proof.
  unfold RequestHandler.try_block. repeat case_match; simpl; done.
Qed.

(** Every request, whatever its path and however its handling ends,
    leaves the inflight count as it found it. *)
Theorem request_keeps_inflight (e : Env) (r : Request) (s : Shared) :
  (0 ≤ inflight s)%Z → inflight (do_GET e r s).1 = inflight s.
Proof.
  intros Hn. destruct (is_admin (path r)) eqn:Ha.
  - unfold RequestHandler.do_GET. unfold is_admin in Ha.
    destruct (String.eqb (path r) "/__counts"); [done |].
    simpl in Ha. rewrite Ha. apply handle_api_frame.
  - rewrite do_GET_plain by done. cbv zeta.
    set (s1 := match limiter s with Some _ => _ | None => s end).
    assert (H1 : inflight s1 = inflight s) by (subst s1; by destruct (limiter s)).
    destruct (negb (lets_in e r s));
      [by destruct (reject_failure e) |].
    pose proof (try_block_frame' e r (_inflight_inc s1)) as (_ & _ & Hi & _).
    destruct (try_block e r (_inflight_inc s1)) as [[s2 st] [resp|x]];
      simpl in *; unfold finally_clause, _inflight_dec, _log; simpl;
      rewrite Hi, H1; destruct (Z.ltb_spec 0 (inflight s + 1)); simpl; lia.
Qed.

(** A request for [/__counts] or under [/api/], other than [/api/fire]
    (whose answer waits for requests of its own, each of which goes
    through [do_GET] in another worker), leaves the limiter, the inflight
    count and the log untouched, and the counter too unless the path
    starts with [/api/reset]. *)
Theorem admin_request_frame (e : Env) (r : Request) (s : Shared) :
  is_admin (path r) = true →
  String.prefix "/api/fire" (path r) = false →
  limiter (do_GET e r s).1 = limiter s ∧
  inflight (do_GET e r s).1 = inflight s ∧
  logs (do_GET e r s).1 = logs s ∧
  log_seq (do_GET e r s).1 = log_seq s ∧
  (String.prefix "/api/reset" (path r) = false →
   counter (do_GET e r s).1 = counter s).
Proof.
  intros Ha _. unfold RequestHandler.do_GET. unfold is_admin in Ha.
  destruct (String.eqb (path r) "/__counts"); [done |].
  simpl in Ha. rewrite Ha.
  destruct (handle_api_frame e r s) as (H1 & H2 & H3 & H4 & _ & H5).
  repeat split; try done.
  intros Hr. destruct H5 as [H5|[H5 _]]; [done | congruence].
Qed.

(** A request that is not administrative, that the limiter lets in and
    whose handling returns: the counter of its path without the query goes
    up by one, and exactly one entry is appended to the log, with the next
    id, the status of the response and the inflight count including the
    request itself. *)
Theorem served_request_effects (e : Env) (r : Request) (s : Shared)
    (resp : Response) :
  is_admin (path r) = false →
  lets_in e r s = true →
  (do_GET e r s).2 = Ok resp →
  ∃ key entry,
    urlsplit_path (path r) = Ok key ∧
    counter (do_GET e r s).1 = counter_inc key <$> counter s ∧
    logs (do_GET e r s).1 = deque_append logs_maxlen entry (logs s) ∧
    log_seq (do_GET e r s).1 = (log_seq s + 1)%Z ∧
    LogEntry.id entry = (log_seq s + 1)%Z ∧
    LogEntry.path entry = path r ∧
    LogEntry.ip entry = client_key s r ∧
    LogEntry.status entry = response_status resp ∧
    LogEntry.inflight entry = (inflight s + 1)%Z.
Proof.
  intros Ha Hin. rewrite do_GET_plain by done. cbv zeta. rewrite Hin. simpl.
  set (s1 := match limiter s with Some _ => _ | None => s end).
  assert (H1 : inflight s1 = inflight s ∧ logs s1 = logs s ∧
               log_seq s1 = log_seq s ∧ counter s1 = counter s ∧
               delay s1 = delay s)
    by (subst s1; by destruct (limiter s)).
  destruct H1 as (Hi & Hl & Hq & Hc & Hd).
  unfold RequestHandler.try_block. simpl delay. rewrite Hd.
  destruct (Qgt_bool 0 (delay s)); [simpl; discriminate |].
  destruct (urlsplit_path (path r)) as [key|x]; [| simpl; discriminate].
  simpl counter. rewrite Hc.
  destruct (endswith "/" (path r) || String.eqb (path r) "/").
  - unfold _serve_custom_index.
    destruct (listdir e) as [items|]; simpl.
    + destruct (write_failure e); simpl; [discriminate |].
      intros [= <-]. exists key. eexists. split; [done |].
      unfold finally_clause, _inflight_dec, _log, _inflight_peek. simpl.
      rewrite Hi, Hl, Hq.
      destruct (0 <? inflight s + 1)%Z; simpl; repeat split; reflexivity.
    + destruct (write_failure e); simpl; [discriminate |].
      intros [= <-]. exists key. eexists. split; [done |].
      unfold finally_clause, _inflight_dec, _log, _inflight_peek. simpl.
      rewrite Hi, Hl, Hq.
      destruct (0 <? inflight s + 1)%Z; simpl; repeat split; reflexivity.
  - destruct (static_failure e); simpl; [discriminate |].
    intros [= <-]. exists key. eexists. split; [done |].
    unfold finally_clause, _inflight_dec, _log, _inflight_peek. simpl.
    rewrite Hi, Hl, Hq.
    destruct (0 <? inflight s + 1)%Z; simpl; repeat split; reflexivity.
Qed.

End Handling.
Lemma request_keeps_inflight_witness :
  inflight (Examples.py_do_GET Examples.failing_env Examples.failing_request
              Examples.shared0).1
  = inflight Examples.shared0.
Proof.
  apply (request_keeps_inflight PyLib.urlsplit_path PyLib.parse_qs_query
           PyLib.int_of_str Examples.failing_env Examples.failing_request
           Examples.shared0).
  simpl. lia.
Defined.

Lemma admin_request_frame_witness :
  limiter (Examples.py_do_GET Examples.env0 Examples.logs_request
             Examples.drained).1
  = limiter Examples.drained ∧
  inflight (Examples.py_do_GET Examples.env0 Examples.logs_request
              Examples.drained).1
  = inflight Examples.drained ∧
  logs (Examples.py_do_GET Examples.env0 Examples.logs_request
          Examples.drained).1
  = logs Examples.drained ∧
  log_seq (Examples.py_do_GET Examples.env0 Examples.logs_request
             Examples.drained).1
  = log_seq Examples.drained ∧
  (String.prefix "/api/reset" (path Examples.logs_request) = false →
   counter (Examples.py_do_GET Examples.env0 Examples.logs_request
              Examples.drained).1
   = counter Examples.drained).
Proof.
  apply (admin_request_frame PyLib.urlsplit_path PyLib.parse_qs_query
           PyLib.int_of_str Examples.env0 Examples.logs_request
           Examples.drained); reflexivity.
Defined.

Lemma served_request_effects_witness :
  ∃ key entry,
    PyLib.urlsplit_path (path Examples.index_request) = Ok key ∧
    counter (Examples.py_do_GET Examples.env0 Examples.index_request
               Examples.shared0).1
    = counter_inc key <$> counter Examples.shared0 ∧
    logs (Examples.py_do_GET Examples.env0 Examples.index_request
            Examples.shared0).1
    = deque_append logs_maxlen entry (logs Examples.shared0) ∧
    log_seq (Examples.py_do_GET Examples.env0 Examples.index_request
               Examples.shared0).1
    = (log_seq Examples.shared0 + 1)%Z ∧
    LogEntry.id entry = (log_seq Examples.shared0 + 1)%Z ∧
    LogEntry.path entry = path Examples.index_request ∧
    LogEntry.ip entry = client_key Examples.shared0 Examples.index_request ∧
    LogEntry.status entry = response_status (SendStatic (Some 200%Z)) ∧
    LogEntry.inflight entry = (inflight Examples.shared0 + 1)%Z.
Proof.
  apply (served_request_effects PyLib.urlsplit_path PyLib.parse_qs_query
           PyLib.int_of_str Examples.env0 Examples.index_request
           Examples.shared0 (SendStatic (Some 200%Z)));
    vm_compute; reflexivity.
Defined.

End ServerMore.

(** ** The counts endpoints *)

Module ServerMore2.
Import RequestHandler ServerX ServerFacts ServerMore.



Section Handling.
Variable urlsplit_path : string → result string.
Variable parse_qs_query : string → gmap string (list string).
Variable int_of_str : string → option Z.

Local Abbreviation do_GET :=
  (do_GET urlsplit_path parse_qs_query int_of_str).
Local Abbreviation serve := (serve urlsplit_path parse_qs_query int_of_str).
Local Abbreviation normalize_counts := (normalize_counts urlsplit_path).
Local Abbreviation try_block := (try_block urlsplit_path).




End Handling.


End ServerMore2.

(** ** The log over sequences of requests *)

Module LogMore.
Import RequestHandler ServerX ServerFacts ServerMore.

Lemma entries_from_app a : ∀ b seq,
  entries_from seq (a ++ b)
  = entries_from seq a ++ entries_from (seq + Z.of_nat (length a))%Z b.
Proof.
  induction a as [|c a IH]; intros b seq; simpl.
  - by rewrite Z.add_0_r.
  - rewrite IH. do 3 f_equal. lia.
Qed.

Lemma entries_from_drop calls : ∀ d seq,
  drop d (entries_from seq calls)
  = entries_from (seq + Z.of_nat (d `min` length calls))%Z (drop d calls).
Proof.
  induction calls as [|c calls IH]; intros d seq.
  - simpl. rewrite !drop_nil. done.
  - destruct d as [|d]; simpl.
    + by rewrite Z.add_0_r.
    + rewrite IH. f_equal. lia.
Qed.

Lemma entries_from_ids calls : ∀ q,
  map LogEntry.id (entries_from q calls)
  = map (λ j, (q + 1 + Z.of_nat j)%Z) (seq 0 (length calls)).
Proof.
  induction calls as [|c calls IH]; intros q; simpl; [done |].
  f_equal; [lia |]. rewrite IH, <- seq_shift, map_map.
  apply map_ext. intros j. lia.
Qed.

(** Filtering by [since] cuts a run of appended entries at the id. *)
Lemma filter_entries_from calls : ∀ q since,
  (q ≤ since)%Z →
  List.filter (λ e, (since <? LogEntry.id e)%Z) (entries_from q calls)
  = drop (Z.to_nat (since - q)) (entries_from q calls).
Proof.
  induction calls as [|c calls IH]; intros q since Hq; simpl.
  - by rewrite drop_nil.
  - destruct (Z.ltb_spec since (q + 1)) as [H|H].
    + replace (Z.to_nat (since - q)) with 0 by lia. simpl. f_equal.
      pose proof (entries_from_above calls (q + 1)) as Ha.
      induction Ha as [|x l Hx Hl IHl]; [done |]. simpl.
      destruct (Z.ltb_spec since (LogEntry.id x)); [| lia]. by f_equal.
    + rewrite IH by lia.
      replace (Z.to_nat (since - q)) with (S (Z.to_nat (since - (q + 1))))
        by lia. done.
Qed.

Lemma log_wf_log ip m p st d i w t s :
  log_wf s → log_wf (_log ip m p st d i w t s).
Proof.
  intros (calls & El & Es).
  exists (calls ++ [mkLogCall ip m p st d i w t]). unfold _log. simpl.
  rewrite El, Es. split.
  - rewrite deque_append_last_items;
      [| unfold logs_maxlen; lia
       | rewrite last_items_length, Nat2Z.id; lia].
    rewrite last_items_app_last, entries_from_app. simpl. done.
  - rewrite length_app. simpl. lia.
Qed.

Lemma log_wf_same s s' :
  logs s' = logs s → log_seq s' = log_seq s → log_wf s → log_wf s'.
Proof. intros El Es (calls & ? & ?). exists calls. by rewrite El, Es. Qed.

Lemma log_wf_dec s : log_wf s → log_wf (_inflight_dec s).
Proof. unfold _inflight_dec. by destruct (0 <? inflight s)%Z. Qed.

Section Handling.
Variable urlsplit_path : string → result string.
Variable parse_qs_query : string → gmap string (list string).
Variable int_of_str : string → option Z.

Local Abbreviation do_GET :=
  (do_GET urlsplit_path parse_qs_query int_of_str).
Local Abbreviation serve := (serve urlsplit_path parse_qs_query int_of_str).
Local Abbreviation try_block := (try_block urlsplit_path).

Lemma do_GET_log_wf e r s : log_wf s → log_wf (do_GET e r s).1.
Proof.
  intros Hw. destruct (is_admin (path r)) eqn:Ha.
  - unfold RequestHandler.do_GET. unfold is_admin in Ha.
    destruct (String.eqb (path r) "/__counts"); [done |].
    simpl in Ha. rewrite Ha.
    destruct (handle_api_frame urlsplit_path parse_qs_query int_of_str e r s)
      as (_ & _ & Hl & Hq & _).
    by eapply log_wf_same.
  - rewrite do_GET_plain by done. cbv zeta.
    set (s1 := match limiter s with Some _ => _ | None => s end).
    assert (H1 : log_wf s1).
    { subst s1. destruct (limiter s); [| done]. by apply (log_wf_same s). }
    destruct (negb (lets_in e r s));
      [destruct (reject_failure e); simpl; [done | by apply log_wf_log] |].
    pose proof (try_block_frame' urlsplit_path e r (_inflight_inc s1))
      as (_ & _ & _ & Hl & Hq).
    assert (H2 : log_wf (try_block e r (_inflight_inc s1)).1.1).
    { eapply log_wf_same; [exact Hl | exact Hq |].
      by apply (log_wf_same s1). }
    destruct (try_block e r (_inflight_inc s1)) as [[s2 st] [resp|x]];
      simpl in *; unfold finally_clause;
      repeat (apply log_wf_dec || apply log_wf_log); done.
Qed.

Lemma serve_log_wf reqs : ∀ s, log_wf s → log_wf (serve reqs s).1.
Proof.
  induction reqs as [|[e r] rest IH]; intros s Hw; simpl; [done |].
  pose proof (do_GET_log_wf e r s Hw) as H1.
  destruct (do_GET e r s) as [s1 out]. simpl in H1.
  specialize (IH s1 H1). by destruct (serve rest s1).
Qed.

Lemma initial_log_wf s : logs s = [] → log_seq s = 0%Z → log_wf s.
Proof. intros El Es. exists []. by rewrite El, Es. Qed.

(** After any sequence of requests handled from the initial class state,
    the log holds the last [min 1000 log_seq] entries, in ascending order
    with consecutive ids that end at [log_seq]. *)
Theorem served_log_consecutive (reqs : list (Env * Request)) (s0 : Shared) :
  logs s0 = [] → log_seq s0 = 0%Z →
  let s := (serve reqs s0).1 in
  (0 ≤ log_seq s)%Z ∧
  length (logs s) = Nat.min 1000 (Z.to_nat (log_seq s)) ∧
  ascending (logs s) ∧
  ∀ i x, logs s !! i = Some x →
         LogEntry.id x
         = (log_seq s - Z.of_nat (length (logs s)) + 1 + Z.of_nat i)%Z.
Proof.
  intros El Es s.
  destruct (serve_log_wf reqs s0 (initial_log_wf s0 El Es))
    as (calls & Hl & Hq).
  fold s in Hl, Hq. rewrite Hl, Hq. unfold last_items.
  rewrite Nat2Z.id, entries_from_length, length_drop, entries_from_length.
  split; [lia |]. split; [unfold logs_maxlen; lia |].
  split; [apply ascending_drop, entries_from_ascending |].
  intros i x Hi. rewrite lookup_drop in Hi.
  assert (Hid : map LogEntry.id (entries_from 0 calls)
                !! (length calls - logs_maxlen + i)
                = Some (LogEntry.id x)).
  { change (map LogEntry.id ?l) with (LogEntry.id <$> l).
    by rewrite list_lookup_fmap, Hi. }
  rewrite entries_from_ids in Hid.
  change (map ?f ?l) with (f <$> l) in Hid.
  rewrite list_lookup_fmap in Hid.
  destruct (seq 0 (length calls) !! (length calls - logs_maxlen + i))
    as [j|] eqn:Ej; [| discriminate].
  apply lookup_seq in Ej as [-> Hlt]. simpl in Hid.
  injection Hid as <-. lia.
Qed.

(** Polling [/api/logs] with [since] set to an id at most 1000 behind
    [log_seq] selects the entries with ids [since + 1, ..., log_seq], each
    once; [last] plays no part. *)
Theorem poll_since_last_seen (reqs : list (Env * Request)) (s0 : Shared)
    (since last : Z) :
  logs s0 = [] → log_seq s0 = 0%Z →
  let s := (serve reqs s0).1 in
  (0 < since)%Z → (log_seq s - since ≤ 1000)%Z →
  map LogEntry.id (select_logs since last (logs s))
  = map (λ j, (since + 1 + Z.of_nat j)%Z)
        (seq 0 (Z.to_nat (log_seq s - since))).
Proof.
  intros El Es s Hs Hgap.
  destruct (serve_log_wf reqs s0 (initial_log_wf s0 El Es))
    as (calls & Hl & Hq).
  fold s in Hl, Hq. rewrite Hl, Hq. unfold select_logs, last_items.
  destruct (Z.ltb_spec 0 since); [| lia].
  rewrite Nat2Z.id, entries_from_length.
  rewrite Hq in Hgap.
  set (d := length calls - logs_maxlen).
  assert (Hd : d ≤ length calls) by (subst d; lia).
  rewrite entries_from_drop, Nat.min_l by done.
  rewrite filter_entries_from by (subst d; unfold logs_maxlen; lia).
  rewrite entries_from_drop, entries_from_ids.
  rewrite !length_drop.
  set (k := Z.to_nat (since - (0 + Z.of_nat d))).
  replace (length calls - d - k) with (Z.to_nat (Z.of_nat (length calls) - since))
    by (subst k d; unfold logs_maxlen in *; lia).
  apply map_ext_in. intros j Hj%in_seq.
  subst k d. unfold logs_maxlen in *. lia.
Qed.

End Handling.
Lemma served_log_consecutive_witness :
  let s := (MoreExamples.py_serve MoreExamples.three_requests
              Examples.shared0).1 in
  (0 ≤ log_seq s)%Z ∧
  length (logs s) = Nat.min 1000 (Z.to_nat (log_seq s)) ∧
  ascending (logs s) ∧
  ∀ i x, logs s !! i = Some x →
         LogEntry.id x
         = (log_seq s - Z.of_nat (length (logs s)) + 1 + Z.of_nat i)%Z.
Proof.
  apply (served_log_consecutive PyLib.urlsplit_path PyLib.parse_qs_query
           PyLib.int_of_str MoreExamples.three_requests Examples.shared0);
    reflexivity.
Defined.

Lemma poll_since_last_seen_witness :
  map LogEntry.id
    (select_logs 1 100
       (logs (MoreExamples.py_serve MoreExamples.three_requests
                Examples.shared0).1))
  = map (λ j, (1 + 1 + Z.of_nat j)%Z)
        (seq 0
           (Z.to_nat
              (log_seq (MoreExamples.py_serve MoreExamples.three_requests
                          Examples.shared0).1 - 1))).
Proof.
  apply (poll_since_last_seen PyLib.urlsplit_path PyLib.parse_qs_query
           PyLib.int_of_str MoreExamples.three_requests Examples.shared0
           1 100); [reflexivity | reflexivity | lia |].
  vm_compute. discriminate.
Defined.

(** The three requests log three entries; polling after the first gives
    the other two. *)
Example poll_after_first :
  map LogEntry.id
    (select_logs 1 100
       (logs (MoreExamples.py_serve MoreExamples.three_requests
                Examples.shared0).1))
  = [2; 3]%Z.
Proof. vm_compute. reflexivity. Qed.

End LogMore.
